(** * evalInScope.py: scoped evaluation of a Python expression

    The repository is one function,

      def eval_in_scope(code, context_as_scope):
          return eval(code, {"__builtins__": __builtins__}, context_as_scope)

    Its behaviour is that of the host's [eval] applied to a fresh globals
    dictionary holding only [__builtins__] and to the caller's dictionary as
    locals.  This file embeds the function over a model of [eval] for a
    fragment of Python's expression grammar:

      names, decimal integers, True False None, parentheses,
      unary minus, + - * //, not and or, calls f(a, b), (name := value),

    in texts of at most [max_tokens] tokens, well inside the interpreter's
    limits on nesting.  The values are integers, booleans, None, strings and
    floating-point numbers (the latter two from the scope only).  Whatever
    lies outside that fragment evaluates to [Unsupported]: the model says
    nothing about it. *)

From Stdlib Require Import ZArith Ascii String List Bool Lia PrimFloat.
From stdpp Require Import base gmap strings list fin_maps.

Local Open Scope string_scope.

(** ** Values, exceptions, outcomes *)

(** The part of Python's value universe the model covers.  [VFloat f] is a
    [float], an IEEE 754 binary64 number.  [VBuiltin n] is the
    built-in function or type named [n]; [VBuiltinsObj] is the object bound to
    [__builtins__] (the builtins module, or its dictionary); [VMainModule] is
    the module object of the running script, [sys.modules['__main__']]. *)
Inductive value :=
  | VInt (z : Z)
  | VBool (b : bool)
  | VNone
  | VStr (s : string)
  | VBuiltin (name : string)
  | VBuiltinsObj
  | VMainModule
  | VFloat (f : float).

(** A Python namespace: a dict from names to values. *)
Abbreviation namespace := (gmap string value).

(** The host's exceptions that the fragment can raise. *)
Inductive exn :=
  | SyntaxError
  | NameError (name : string)
  | TypeError
  | ZeroDivisionError.

(** [type(e).__name__] *)
Definition exn_class (e : exn) : string :=
  match e with
  | SyntaxError => "SyntaxError"
  | NameError _ => "NameError"
  | TypeError => "TypeError"
  | ZeroDivisionError => "ZeroDivisionError"
  end.

Inductive outcome (A : Type) :=
  | Return (a : A)
  | Raise (e : exn)
  | Unsupported.
Arguments Return {A} a.
Arguments Raise {A} e.
Arguments Unsupported {A}.

Definition is_return {A} (o : outcome A) : bool :=
  match o with Return _ => true | _ => false end.

Definition is_raise {A} (o : outcome A) : bool :=
  match o with Raise _ => true | _ => false end.

Definition in_model {A} (o : outcome A) : bool :=
  match o with Unsupported => false | _ => true end.

(** The interpreter state an evaluation runs in: the built-in namespace that
    [__builtins__] denotes, the module-level bindings of the running script
    and the local variables of the frame that makes the call. *)
Record host := {
  h_builtins : namespace;
  h_globals : namespace;
  h_locals : namespace
}.

(** ** Tokens *)

Inductive token :=
  | TName (id : string)
  | TNum (z : Z)
  | TTrue | TFalse | TNone
  | TOr | TAnd | TNot
  | TPlus | TMinus | TStar | TFloorDiv
  | TLParen | TRParen | TComma | TWalrus
  | TOther.

Definition is_space (c : ascii) : bool :=
  let n := nat_of_ascii c in (n =? 32)%nat || (n =? 9)%nat.

Definition is_digit (c : ascii) : bool :=
  let n := nat_of_ascii c in (48 <=? n)%nat && (n <=? 57)%nat.

Definition is_ident_start (c : ascii) : bool :=
  let n := nat_of_ascii c in
  ((65 <=? n)%nat && (n <=? 90)%nat) || ((97 <=? n)%nat && (n <=? 122)%nat)
  || (n =? 95)%nat.

Definition is_ident_char (c : ascii) : bool := is_ident_start c || is_digit c.

(** The longest prefix of [s] whose characters satisfy [p], and the rest. *)
Fixpoint span (p : ascii -> bool) (s : string) : string * string :=
  match s with
  | EmptyString => (EmptyString, EmptyString)
  | String c s' =>
      if p c then let '(w, r) := span p s' in (String c w, r)
      else (EmptyString, s)
  end.

Fixpoint string_forall (p : ascii -> bool) (s : string) : bool :=
  match s with
  | EmptyString => true
  | String c s' => p c && string_forall p s'
  end.

Definition digit_val (c : ascii) : Z := Z.of_nat (nat_of_ascii c) - 48.

Fixpoint digits_to_Z (acc : Z) (s : string) : Z :=
  match s with
  | EmptyString => acc
  | String c s' => digits_to_Z (10 * acc + digit_val c) s'
  end.

(** Python's keywords that the fragment has no token for, and [__debug__],
    which the compiler replaces by a constant. *)
Definition reserved_words : list string :=
  [ "as"; "assert"; "async"; "await"; "break"; "class"; "continue"; "def";
    "del"; "elif"; "else"; "except"; "finally"; "for"; "from"; "global";
    "if"; "import"; "in"; "is"; "lambda"; "nonlocal"; "pass"; "raise";
    "return"; "try"; "while"; "with"; "yield"; "__debug__" ].

Definition fragment_keywords : list string :=
  [ "True"; "False"; "None"; "or"; "and"; "not" ].

Definition word_token (w : string) : token :=
  if String.eqb w "True" then TTrue
  else if String.eqb w "False" then TFalse
  else if String.eqb w "None" then TNone
  else if String.eqb w "or" then TOr
  else if String.eqb w "and" then TAnd
  else if String.eqb w "not" then TNot
  else if existsb (String.eqb w) reserved_words then TOther
  else TName w.

Definition starts_with (p : ascii -> bool) (s : string) : bool :=
  match s with
  | EmptyString => false
  | String c _ => p c
  end.

Definition is_char (n : nat) (c : ascii) : bool := (nat_of_ascii c =? n)%nat.

(** A digit run is a decimal integer literal of the fragment unless it has a
    leading zero, exceeds CPython's 4300-digit limit, or runs into a letter,
    an underscore or a dot (float, hex, octal, imaginary, grouped digits). *)
Definition plain_decimal (d rest : string) : bool :=
  negb ((1 <? String.length d)%nat && starts_with (is_char 48) d)
  && (String.length d <=? 4300)%nat
  && negb (starts_with (fun c => is_ident_start c || is_char 46 c) rest).

(** The tokenizer.  Spaces and tabs separate tokens ([eval] strips the leading
    ones itself).  [TOther] stands for any token outside the fragment. *)
Fixpoint lex_go (fuel : nat) (s : string) : list token :=
  match fuel with
  | O => [TOther]
  | S fuel =>
      match s with
      | EmptyString => []
      | String c s' =>
          if is_space c then lex_go fuel s'
          else if is_ident_start c then
            let '(w, rest) := span is_ident_char s in
            word_token w :: lex_go fuel rest
          else if is_digit c then
            let '(d, rest) := span is_digit s in
            if plain_decimal d rest then TNum (digits_to_Z 0 d) :: lex_go fuel rest
            else [TOther]
          else if is_char 43 c then                         (* + *)
            if starts_with (is_char 61) s' then [TOther]
            else TPlus :: lex_go fuel s'
          else if is_char 45 c then                         (* - *)
            if starts_with (fun d => is_char 61 d || is_char 62 d) s' then [TOther]
            else TMinus :: lex_go fuel s'
          else if is_char 42 c then                         (* * *)
            if starts_with (fun d => is_char 61 d || is_char 42 d) s' then [TOther]
            else TStar :: lex_go fuel s'
          else if is_char 47 c then                         (* / *)
            match s' with
            | String c2 s'' =>
                if is_char 47 c2 && negb (starts_with (is_char 61) s'')
                then TFloorDiv :: lex_go fuel s''
                else [TOther]
            | EmptyString => [TOther]
            end
          else if is_char 40 c then TLParen :: lex_go fuel s'
          else if is_char 41 c then TRParen :: lex_go fuel s'
          else if is_char 44 c then TComma :: lex_go fuel s'
          else if is_char 58 c then                         (* : *)
            match s' with
            | String c2 s'' =>
                if is_char 61 c2 then TWalrus :: lex_go fuel s'' else [TOther]
            | EmptyString => [TOther]
            end
          else [TOther]
      end
  end.

Definition lex (s : string) : list token := lex_go (S (String.length s)) s.

(** A name the tokenizer reads as one NAME token. *)
Definition is_identifier (n : string) : bool :=
  starts_with is_ident_start n && string_forall is_ident_char n
  && negb (existsb (String.eqb n) (fragment_keywords ++ reserved_words)).

(** ** Abstract syntax *)

#[local] Set Warnings "-register-all".

Inductive unaryop := USub | Not.
Inductive operator := Add | Sub | Mult | FloorDiv.
Inductive boolop := And | Or.

(** The nodes of Python's [ast] module that the fragment needs.  [a or b or c]
    is kept as [(a or b) or c], which evaluates the same way. *)
Inductive constant :=
  | CInt (z : Z)
  | CBool (b : bool)
  | CNone.

Inductive expr :=
  | Name (id : string)
  | Constant (c : constant)
  | UnaryOp (op : unaryop) (operand : expr)
  | BinOp (op : operator) (left right : expr)
  | BoolOp (op : boolop) (left right : expr)
  | Call (func : expr) (args : list expr)
  | NamedExpr (target : string) (val : expr).

(** ** Parser *)

Inductive presult (A : Type) :=
  | POk (a : A)
  | PSyntaxError
  | PUnsupported.
Arguments POk {A} a.
Arguments PSyntaxError {A}.
Arguments PUnsupported {A}.

Definition pbind {A B} (r : presult A) (k : A -> presult B) : presult B :=
  match r with
  | POk a => k a
  | PSyntaxError => PSyntaxError
  | PUnsupported => PUnsupported
  end.

Abbreviation parser := (list token -> presult (expr * list token)).

(** What the tokens say where an operand must start and none of the
    fragment does: the end of the input, a closing parenthesis or a comma
    cannot start an expression in Python either; anything else may be Python
    outside the fragment. *)
Definition operand_error {A} (ts : list token) : presult A :=
  match ts with
  | [] | TRParen :: _ | TComma :: _ => PSyntaxError
  | _ => PUnsupported
  end.

(** What the tokens say where a complete operand is followed by something
    that does not continue it: a second operand, a stray closing parenthesis
    or (inside parentheses) the end of the input is a syntax error. *)
Definition follow_error {A} (ts : list token) : presult A :=
  match ts with
  | [] => PSyntaxError
  | (TName _ | TNum _ | TTrue | TFalse | TNone | TRParen) :: _ => PSyntaxError
  | _ => PUnsupported
  end.

Definition expect_rparen (e : expr) (ts : list token) : presult (expr * list token) :=
  match ts with
  | TRParen :: r => POk (e, r)
  | _ => follow_error ts
  end.

(** atom: NAME | NUMBER | 'True' | 'False' | 'None' | '(' named_expression ')' *)
Definition atom_with (rec : parser) (ts : list token) : presult (expr * list token) :=
  match ts with
  | TName n :: r => POk (Name n, r)
  | TNum z :: r => POk (Constant (CInt z), r)
  | TTrue :: r => POk (Constant (CBool true), r)
  | TFalse :: r => POk (Constant (CBool false), r)
  | TNone :: r => POk (Constant CNone, r)
  | TLParen :: TRParen :: _ => PUnsupported
  | TLParen :: TName n :: TWalrus :: r =>
      pbind (rec r) (fun '(e, r') => expect_rparen (NamedExpr n e) r')
  | TLParen :: r =>
      pbind (rec r) (fun '(e, r') => expect_rparen e r')
  | _ => operand_error ts
  end.

(** The arguments of a call, after the opening parenthesis. *)
Fixpoint args_with (k : nat) (rec : parser) (ts : list token)
  : presult (list expr * list token) :=
  match k with
  | O => PUnsupported
  | S k =>
      match ts with
      | TRParen :: r => POk ([], r)
      | _ =>
          pbind (rec ts) (fun '(e, r) =>
          match r with
          | TComma :: r' => pbind (args_with k rec r') (fun '(es, r'') => POk (e :: es, r''))
          | TRParen :: r' => POk ([e], r')
          | _ => follow_error r
          end)
      end
  end.

(** primary: atom ('(' arguments ')')* *)
Fixpoint trailers_with (k : nat) (rec : parser) (f : expr) (ts : list token)
  : presult (expr * list token) :=
  match k with
  | O => PUnsupported
  | S k =>
      match ts with
      | TLParen :: r =>
          pbind (args_with (S (length r)) rec r) (fun '(es, r') =>
          trailers_with k rec (Call f es) r')
      | _ => POk (f, ts)
      end
  end.

Definition primary_with (rec : parser) (ts : list token) : presult (expr * list token) :=
  pbind (atom_with rec ts) (fun '(a, r) => trailers_with (S (length r)) rec a r).

(** factor: '-' factor | primary *)
Fixpoint factor_with (rec : parser) (ts : list token) : presult (expr * list token) :=
  match ts with
  | TMinus :: r => pbind (factor_with rec r) (fun '(e, r') => POk (UnaryOp USub e, r'))
  | _ => primary_with rec ts
  end.

(** operand (op operand)*, associating to the left. *)
Fixpoint chain_rest (k : nat) (operand : parser)
    (op_of : token -> option (expr -> expr -> expr))
    (lhs : expr) (ts : list token) : presult (expr * list token) :=
  match k with
  | O => PUnsupported
  | S k =>
      match ts with
      | t :: r =>
          match op_of t with
          | Some mk =>
              pbind (operand r) (fun '(rhs, r') => chain_rest k operand op_of (mk lhs rhs) r')
          | None => POk (lhs, ts)
          end
      | [] => POk (lhs, ts)
      end
  end.

Definition chain (operand : parser) (op_of : token -> option (expr -> expr -> expr))
    (ts : list token) : presult (expr * list token) :=
  pbind (operand ts) (fun '(lhs, r) => chain_rest (S (length r)) operand op_of lhs r).

Definition term_op (t : token) : option (expr -> expr -> expr) :=
  match t with
  | TStar => Some (BinOp Mult)
  | TFloorDiv => Some (BinOp FloorDiv)
  | _ => None
  end.

Definition sum_op (t : token) : option (expr -> expr -> expr) :=
  match t with
  | TPlus => Some (BinOp Add)
  | TMinus => Some (BinOp Sub)
  | _ => None
  end.

Definition and_op (t : token) : option (expr -> expr -> expr) :=
  match t with TAnd => Some (BoolOp And) | _ => None end.

Definition or_op (t : token) : option (expr -> expr -> expr) :=
  match t with TOr => Some (BoolOp Or) | _ => None end.

(** term: factor (('*'|'//') factor)* *)
Definition term_with (rec : parser) : parser := chain (factor_with rec) term_op.

(** sum: term (('+'|'-') term)* *)
Definition sum_with (rec : parser) : parser := chain (term_with rec) sum_op.

(** inversion: 'not' inversion | sum *)
Fixpoint inversion_with (rec : parser) (ts : list token) : presult (expr * list token) :=
  match ts with
  | TNot :: r => pbind (inversion_with rec r) (fun '(e, r') => POk (UnaryOp Not e, r'))
  | _ => sum_with rec ts
  end.

(** conjunction: inversion ('and' inversion)* *)
Definition conjunction_with (rec : parser) : parser := chain (inversion_with rec) and_op.

(** disjunction: conjunction ('or' conjunction)* *)
Definition disjunction_with (rec : parser) : parser := chain (conjunction_with rec) or_op.

(** expression, with [n] bounding the nesting of parentheses. *)
Fixpoint parse_expr (n : nat) (ts : list token) : presult (expr * list token) :=
  match n with
  | O => PUnsupported
  | S n => disjunction_with (parse_expr n) ts
  end.

(** The longest token list the model reads.  CPython refuses more than 200
    nested parentheses, and its parser and compiler give up on deeper nesting
    still; a text this short stays clear of all of that. *)
Definition max_tokens : nat := 64.

(** eval input: expression ENDMARKER *)
Definition parse_tokens (ts : list token) : presult expr :=
  if (max_tokens <? length ts)%nat then PUnsupported
  else
    pbind (parse_expr (S (length ts)) ts) (fun '(e, r) =>
    match r with
    | [] => POk e
    | _ => follow_error r
    end).

Definition parse (code : string) : presult expr := parse_tokens (lex code).

(** ** Evaluation *)

(** Computations that read and write the locals dictionary and may raise. *)
Definition M (A : Type) : Type := namespace -> outcome A * namespace.

Definition ret {A} (a : A) : M A := fun σ => (Return a, σ).

Definition lift {A} (o : outcome A) : M A := fun σ => (o, σ).

Definition bind {A B} (m : M A) (k : A -> M B) : M B :=
  fun σ =>
    match m σ with
    | (Return a, σ') => k a σ'
    | (Raise e, σ') => (Raise e, σ')
    | (Unsupported, σ') => (Unsupported, σ')
    end.

Notation "'let!' x ':=' m 'in' k" := (bind m (fun x => k))
  (at level 10, x name, m at level 200, k at level 200).

(** [bool(v)] *)
Definition truthy (v : value) : bool :=
  match v with
  | VInt z => negb (z =? 0)%Z
  | VBool b => b
  | VNone => false
  | VStr s => negb (String.eqb s "")
  | VFloat f => negb (f =? 0)%float
  | VBuiltin _ | VBuiltinsObj | VMainModule => true
  end.

(** The integer a value stands for in arithmetic: [bool] is a subclass of
    [int]. *)
Definition as_int (v : value) : option Z :=
  match v with
  | VInt z => Some z
  | VBool b => Some (if b then 1 else 0)%Z
  | _ => None
  end.

(** An [int] or a [bool]. *)
Definition is_integral (v : value) : bool :=
  match as_int v with Some _ => true | None => false end.

(** The arithmetic operators.  Integers of any size are exact; two floats
    are added, subtracted and multiplied as IEEE 754 has it (no exception: an
    overflow gives an infinity).  A float mixed with an integer, and floor
    division of floats, are outside the model. *)

Definition binary_op (op : operator) (x y : value) : outcome value :=
  match as_int x, as_int y with
  | Some a, Some b =>
      match op with
      | Add => Return (VInt (a + b))
      | Sub => Return (VInt (a - b))
      | Mult => Return (VInt (a * b))
      | FloorDiv => if (b =? 0)%Z then Raise ZeroDivisionError else Return (VInt (a / b))
      end
  | _, _ =>
      match op, x, y with
      | Add, VFloat a, VFloat b => Return (VFloat (a + b))
      | Sub, VFloat a, VFloat b => Return (VFloat (a - b))
      | Mult, VFloat a, VFloat b => Return (VFloat (a * b))
      | FloorDiv, VFloat _, VFloat _ => Unsupported
      | _, VFloat _, (VInt _ | VBool _) => Unsupported
      | _, (VInt _ | VBool _), VFloat _ => Unsupported
      | Add, VStr s, VStr t => Return (VStr (s ++ t))
      | Mult, VStr _, (VInt _ | VBool _) => Unsupported
      | Mult, (VInt _ | VBool _), VStr _ => Unsupported
      | _, _, _ => Raise TypeError
      end
  end.

(** [x == y] on numbers: integers by value, floats as IEEE 754 has it, so
    that a NaN equals nothing, itself included. *)
Definition py_eq (x y : value) : outcome bool :=
  match as_int x, as_int y with
  | Some a, Some b => Return (a =? b)%Z
  | _, _ =>
      match x, y with
      | VFloat a, VFloat b => Return (a =? b)%float
      | _, _ => Unsupported
      end
  end.

Definition unary_op (op : unaryop) (x : value) : outcome value :=
  match op with
  | Not => Return (VBool (negb (truthy x)))
  | USub =>
      match as_int x with
      | Some a => Return (VInt (- a))
      | None =>
          match x with
          | VFloat f => Return (VFloat (- f))
          | _ => Raise TypeError
          end
      end
  end.

(** LOAD_NAME over three namespaces: the locals, then the globals, then the
    built-ins. *)
Definition load_name (locals globals builtins : namespace) (n : string) : outcome value :=
  match locals !! n with
  | Some v => Return v
  | None =>
      match globals !! n with
      | Some v => Return v
      | None =>
          match builtins !! n with
          | Some v => Return v
          | None => Raise (NameError n)
          end
      end
  end.

(** What a frame has for built-ins: the namespace its globals bind to
    [__builtins__], the host's when they bind none ([eval] then puts the
    host's in), and nothing to look names up in when they bind it to a value
    without items. *)
Inductive builtins_ref :=
  | BuiltinsNs (ns : namespace)
  | BuiltinsNoItems
  | BuiltinsOther.

Definition frame_builtins (h : host) (globals : namespace) : builtins_ref :=
  match globals !! "__builtins__" with
  | None | Some VBuiltinsObj => BuiltinsNs (h_builtins h)
  | Some (VInt _ | VBool _ | VNone | VStr _ | VFloat _) => BuiltinsNoItems
  | Some (VBuiltin _ | VMainModule) => BuiltinsOther
  end.

(** The lookup of a name in a frame: LOAD_NAME, with the built-ins the
    frame's globals give. *)
Definition resolve (h : host) (globals locals : namespace) (n : string) : outcome value :=
  match locals !! n with
  | Some v => Return v
  | None =>
      match globals !! n with
      | Some v => Return v
      | None =>
          match frame_builtins h globals with
          | BuiltinsNs B => load_name locals globals B n
          | BuiltinsNoItems => Raise TypeError
          | BuiltinsOther => Unsupported
          end
      end
  end.

(** [x > y] and [x < y] as [max] and [min] ask for them. *)
Definition rich_compare (gt : bool) (x y : value) : outcome bool :=
  match as_int x, as_int y with
  | Some a, Some b => Return (if gt then (b <? a)%Z else (a <? b)%Z)
  | _, _ =>
      match x, y with
      | VFloat a, VFloat b => Return (if gt then (b <? a)%float else (a <? b)%float)
      | VFloat _, (VInt _ | VBool _) | (VInt _ | VBool _), VFloat _ => Unsupported
      | VStr _, VStr _ => Unsupported
      | _, _ => Raise TypeError
      end
  end.

(** The loop of [max] and [min] over two or more positional arguments: the
    running extremum is replaced when an item compares strictly beyond it. *)
Fixpoint extremum_loop (gt : bool) (cur : value) (items : list value) : outcome value :=
  match items with
  | [] => Return cur
  | item :: rest =>
      match rich_compare gt item cur with
      | Return true => extremum_loop gt item rest
      | Return false => extremum_loop gt cur rest
      | Raise e => Raise e
      | Unsupported => Unsupported
      end
  end.

Definition extremum (gt : bool) (args : list value) : outcome value :=
  match args with
  | [] => Raise TypeError
  | [v] =>
      match v with
      | VStr _ | VBuiltinsObj => Unsupported
      | _ => Raise TypeError
      end
  | v :: rest => extremum_loop gt v rest
  end.

(** Calling the built-in named [name].  [max], [min] and [abs] are modelled on
    the values of the fragment; [__import__] only for the module that is always
    loaded, the running script's, and [getattr] only for a variable the script
    has bound under a name without a leading underscore; every other call is
    outside the model. *)
Definition call_builtin (h : host) (name : string) (args : list value) : outcome value :=
  if String.eqb name "max" then extremum true args
  else if String.eqb name "min" then extremum false args
  else if String.eqb name "abs" then
    match args with
    | [v] =>
        match as_int v with
        | Some a => Return (VInt (Z.abs a))
        | None =>
            match v with
            | VFloat f => Return (VFloat (abs f))
            | _ => Raise TypeError
            end
        end
    | _ => Raise TypeError
    end
  else if String.eqb name "__import__" then
    match args with
    | [VStr m] => if String.eqb m "__main__" then Return VMainModule else Unsupported
    | _ => Unsupported
    end
  else if String.eqb name "getattr" then
    match args with
    | [VMainModule; VStr a] =>
        if starts_with (is_char 95) a then Unsupported
        else match h_globals h !! a with
             | Some v => Return v
             | None => Unsupported
             end
    | _ => Unsupported
    end
  else Unsupported.

Definition call_value (h : host) (f : value) (args : list value) : outcome value :=
  match f with
  | VBuiltin name => call_builtin h name args
  | _ => Raise TypeError
  end.

Definition constant_value (c : constant) : value :=
  match c with
  | CInt z => VInt z
  | CBool b => VBool b
  | CNone => VNone
  end.

(** Evaluation of an expression in the frame [eval] builds: [globals] is the
    globals dictionary, the dictionary threaded through is the locals. *)
Fixpoint eval_expr (h : host) (globals : namespace) (e : expr) : M value :=
  match e with
  | Name n => fun σ => (resolve h globals σ n, σ)
  | Constant c => ret (constant_value c)
  | UnaryOp op a =>
      let! x := eval_expr h globals a in lift (unary_op op x)
  | BinOp op a b =>
      let! x := eval_expr h globals a in
      let! y := eval_expr h globals b in
      lift (binary_op op x y)
  | BoolOp Or a b =>
      let! x := eval_expr h globals a in
      if truthy x then ret x else eval_expr h globals b
  | BoolOp And a b =>
      let! x := eval_expr h globals a in
      if truthy x then eval_expr h globals b else ret x
  | Call f args =>
      let! fv := eval_expr h globals f in
      let! vs := (fix eval_args (es : list expr) : M (list value) :=
              match es with
              | [] => ret []
              | a :: es' =>
                  let! v := eval_expr h globals a in
                  let! vs := eval_args es' in
                  ret (v :: vs)
              end) args in
      lift (call_value h fv vs)
  | NamedExpr n a =>
      let! v := eval_expr h globals a in
      fun σ => (Return v, <[n := v]> σ)
  end.

(** [eval(code, globals, locals)]: compile, then evaluate in a frame over the
    two dictionaries. *)
Definition py_eval (h : host) (code : string) (globals : namespace) : M value :=
  match parse code with
  | POk e => eval_expr h globals e
  | PSyntaxError => lift (Raise SyntaxError)
  | PUnsupported => lift Unsupported
  end.

(** The dictionary literal [{"__builtins__": __builtins__}], built anew by
    every call. *)
Definition eval_globals : namespace := {[ "__builtins__" := VBuiltinsObj ]}.

(** [eval_in_scope(code, context_as_scope)], called in host [h]: the outcome
    and the dictionary [context_as_scope] as the call leaves it. *)
Definition eval_in_scope (h : host) (code : string) (context_as_scope : namespace)
  : outcome value * namespace :=
  py_eval h code eval_globals context_as_scope.

(** [eval(code)] with no dictionaries, which reads and writes the caller's own
    frame: what [eval_in_scope] is written to avoid. *)
Definition direct_eval (h : host) (code : string) : outcome value * namespace :=
  py_eval h code (h_globals h) (h_locals h).

(** The documented built-in functions of Python 3. *)
Definition builtin_names : list string :=
  [ "abs"; "aiter"; "all"; "anext"; "any"; "ascii"; "bin"; "bool"; "breakpoint";
    "bytearray"; "bytes"; "callable"; "chr"; "classmethod"; "compile";
    "complex"; "delattr"; "dict"; "dir"; "divmod"; "enumerate"; "eval"; "exec";
    "filter"; "float"; "format"; "frozenset"; "getattr"; "globals"; "hasattr";
    "hash"; "help"; "hex"; "id"; "input"; "int"; "isinstance"; "issubclass";
    "iter"; "len"; "list"; "locals"; "map"; "max"; "memoryview"; "min"; "next";
    "object"; "oct"; "open"; "ord"; "pow"; "print"; "property"; "range";
    "repr"; "reversed"; "round"; "set"; "setattr"; "slice"; "sorted";
    "staticmethod"; "str"; "sum"; "super"; "tuple"; "type"; "vars"; "zip";
    "__import__" ].

Definition py_builtins : namespace :=
  list_to_map (map (fun n => (n, VBuiltin n)) builtin_names).

(** A host whose script has bound [threshold] at module level and whose
    caller holds a local variable [a]. *)
Definition script_host : host :=
  {| h_builtins := py_builtins;
     h_globals := {[ "threshold" := VInt 42 ]};
     h_locals := {[ "a" := VInt 100 ]} |}.

(** The same interpreter running a script that binds [threshold] to another
    value, the call coming from a frame with another [a]. *)
Definition other_host : host :=
  {| h_builtins := py_builtins;
     h_globals := {[ "threshold" := VInt 7 ]};
     h_locals := {[ "a" := VInt (-1) ]} |}.

(** No assignment expression occurs in [e]. *)
Fixpoint no_assign (e : expr) : bool :=
  match e with
  | Name _ | Constant _ => true
  | UnaryOp _ a => no_assign a
  | BinOp _ a b | BoolOp _ a b => no_assign a && no_assign b
  | Call f args => no_assign f && forallb no_assign args
  | NamedExpr _ _ => false
  end.

(** No short-circuit operator occurs in [e]: every sub-expression is
    evaluated unless an earlier one raises. *)
Fixpoint strict (e : expr) : bool :=
  match e with
  | Name _ | Constant _ => true
  | UnaryOp _ a => strict a
  | BinOp _ a b => strict a && strict b
  | BoolOp _ _ _ => false
  | Call f args => strict f && forallb strict args
  | NamedExpr _ a => strict a
  end.

(** The names [e] loads. *)
Fixpoint loads (e : expr) : list string :=
  match e with
  | Name n => [n]
  | Constant _ => []
  | UnaryOp _ a => loads a
  | BinOp _ a b | BoolOp _ a b => loads a ++ loads b
  | Call f args => loads f ++ flat_map loads args
  | NamedExpr _ a => loads a
  end.

(** The integer value of a numeric value. *)
Definition num (v : value) : Z :=
  match as_int v with Some z => z | None => 0%Z end.

(** The argument loop of a call, as [eval_expr] runs it. *)
Definition eval_args (h : host) (globals : namespace) : list expr -> M (list value) :=
  fix eval_args (es : list expr) : M (list value) :=
    match es with
    | [] => ret []
    | a :: es' =>
        let! v := eval_expr h globals a in
        let! vs := eval_args es' in
        ret (v :: vs)
    end.

(** The names [e] assigns. *)
Fixpoint stores (e : expr) : list string :=
  match e with
  | Name _ | Constant _ => []
  | UnaryOp _ a => stores a
  | BinOp _ a b | BoolOp _ a b => stores a ++ stores b
  | Call f args => stores f ++ flat_map stores args
  | NamedExpr n a => n :: stores a
  end.

(** The source text holds no assignment expression. *)
Definition code_no_assign (code : string) : bool :=
  match parse code with
  | POk e => no_assign e
  | _ => true
  end.

(** The values through which the model reaches the running script's module:
    the module object and the importer. *)
Definition reaches_main (v : value) : bool :=
  match v with
  | VMainModule => true
  | VBuiltin n => String.eqb n "__import__"
  | _ => false
  end.

(** A value through which the module cannot be reached. *)
Definition clean (v : value) : Prop := reaches_main v = false.

(** No value of the dictionary reaches the module. *)
Definition sealed (m : namespace) : Prop :=
  map_Forall (fun _ v => clean v) m.

(** The built-in namespace hands the importer out under its own name only. *)
Definition importer_named (B : namespace) : Prop :=
  map_Forall (fun k v => reaches_main v = true -> k = "__import__") B.

(** Two computations that, on sealed locals, do the same, keep the locals
    sealed and return only results satisfying [Q]. *)
Definition agree {A} (Q : A -> Prop) (m1 m2 : M A) : Prop :=
  forall σ, sealed σ ->
    m1 σ = m2 σ /\ sealed (snd (m1 σ)) /\ forall a, fst (m1 σ) = Return a -> Q a.

(** A computation that leaves the locals as it found them. *)
Definition pure_M {A} (m : M A) : Prop := forall σ, snd (m σ) = σ.

(** The computation keeps [n] unbound in the locals. *)
Definition keeps {A} (n : string) (m : M A) : Prop :=
  forall σ, σ !! n = None -> snd (m σ) !! n = None.

(** Started with [n] unbound in the locals, the computation returns no value. *)
Definition fails {A} (n : string) (m : M A) : Prop :=
  forall σ, σ !! n = None -> is_return (fst (m σ)) = false.

(** The computation leaves the binding of [k], or its absence, as it found
    it. *)
Definition untouched {A} (k : string) (m : M A) : Prop :=
  forall σ, snd (m σ) !! k = σ !! k.

(** The computation removes no key of the locals. *)
Definition grows {A} (m : M A) : Prop :=
  forall σ k, is_Some (σ !! k) -> is_Some (snd (m σ) !! k).

(** Arithmetic over names and numeric literals: unary minus, + - *. *)
Fixpoint arithmetic (e : expr) : bool :=
  match e with
  | Name _ => true
  | Constant (CInt _ | CBool _) => true
  | Constant CNone => false
  | UnaryOp USub a => arithmetic a
  | UnaryOp Not _ => false
  | BinOp (Add | Sub | Mult) a b => arithmetic a && arithmetic b
  | BinOp FloorDiv _ _ => false
  | BoolOp _ _ _ | Call _ _ | NamedExpr _ _ => false
  end.

(** A name looked up from the script's module, at module level or in a
    function of it: the module's globals, then the built-ins. *)
Definition load_global (h : host) (n : string) : outcome value :=
  match h_globals h !! n with
  | Some v => Return v
  | None =>
      match h_builtins h !! n with
      | Some v => Return v
      | None => Raise (NameError n)
      end
  end.

Definition is_builtin (name : string) (v : value) : bool :=
  match v with
  | VBuiltin m => String.eqb m name
  | _ => false
  end.

(** The call [eval_in_scope(code, scope)] as the script makes it: the body
    looks [eval] up before it calls it; anything but the built-in under that
    name is outside the model. *)
Definition call_eval_in_scope (h : host) (code : string) (scope : namespace)
  : outcome value * namespace :=
  match load_global h "eval" with
  | Return f =>
      if is_builtin "eval" f then eval_in_scope h code scope else (Unsupported, scope)
  | Raise x => (Raise x, scope)
  | Unsupported => (Unsupported, scope)
  end.

(** [print(eval_in_scope(code, scope))] as a statement of a script: [print]
    is looked up first, then the call is made, and its value goes to the
    output; an exception ends the script.  The dictionary is the one object
    the caller holds, and stays with it as the call leaves it. *)
Definition print_eval_in_scope (h : host) (code : string) (scope : namespace)
    (stdout : list value) : outcome (list value) * namespace :=
  match load_global h "print" with
  | Return p =>
      if is_builtin "print" p then
        match call_eval_in_scope h code scope with
        | (Return v, scope') => (Return (stdout ++ [v])%list, scope')
        | (Raise e, scope') => (Raise e, scope')
        | (Unsupported, scope') => (Unsupported, scope')
        end
      else (Unsupported, scope)
  | Raise x => (Raise x, scope)
  | Unsupported => (Unsupported, scope)
  end.

(** The statements of evalInScope.py below the function, run in host [h]:
    what has been printed, and the module variable [scope] at the end, if
    the script got as far as binding it.

      print(eval_in_scope('a + b', {'a': 2, 'b': 3}))
      print(eval_in_scope('max(x, y)', {'x': 10, 'y': 20}))
      scope = {'a': 11, 'b': 22, 'c': 33}
      print(eval_in_scope('a + b + c', scope))
      print(eval_in_scope('b * 2', scope)) *)
Definition script_main (h : host) : outcome (list value) * option namespace :=
  match print_eval_in_scope h "a + b" {[ "a" := VInt 2; "b" := VInt 3 ]} [] with
  | (Return out1, _) =>
      match print_eval_in_scope h "max(x, y)" {[ "x" := VInt 10; "y" := VInt 20 ]} out1 with
      | (Return out2, _) =>
          let scope : namespace := {[ "a" := VInt 11; "b" := VInt 22; "c" := VInt 33 ]} in
          match print_eval_in_scope h "a + b + c" scope out2 with
          | (Return out3, scope) =>
              let '(o, scope) := print_eval_in_scope h "b * 2" scope out3 in
              (o, Some scope)
          | (o, scope) => (o, Some scope)
          end
      | (o, _) => (o, None)
      end
  | (o, _) => (o, None)
  end.

(** The text holds no colon. *)
Definition no_colon (s : string) : bool :=
  string_forall (fun c => negb (is_char 58 c)) s.

(** No token of the list is the assignment operator. *)
Definition walrus_free (ts : list token) : Prop :=
  Forall (fun t => t <> TWalrus) ts.

Abbreviation expr_ok := (fun e : expr => no_assign e = true).

(** From tokens without the assignment operator the parser builds an
    expression without assignment, and leaves such tokens. *)
Definition assign_free {A} (ok : A -> Prop) (p : list token -> presult (A * list token)) : Prop :=
  forall ts a r, walrus_free ts -> p ts = POk (a, r) -> ok a /\ walrus_free r.

(** The host after the script has bound [threshold] anew, the frame of the
    caller and the built-ins as they were. *)
Definition rebound_host : host :=
  {| h_builtins := py_builtins;
     h_globals := {[ "threshold" := VInt 7 ]};
     h_locals := {[ "a" := VInt 100 ]} |}.






(** * Properties *)

(** ** The examples of the script and of the grammar *)

Example lex_sum : lex "a + b" = [TName "a"; TPlus; TName "b"].
Proof. reflexivity. Qed.

Example lex_call : lex "max(x, 20)" = [TName "max"; TLParen; TName "x"; TComma; TNum 20; TRParen].
Proof. reflexivity. Qed.

Example parse_sum : parse "a + b" = POk (BinOp Add (Name "a") (Name "b")).
Proof. reflexivity. Qed.

Example parse_sum3 :
  parse "a + b + c" = POk (BinOp Add (BinOp Add (Name "a") (Name "b")) (Name "c")).
Proof. reflexivity. Qed.

Example parse_call :
  parse "max(x, y)" = POk (Call (Name "max") [Name "x"; Name "y"]).
Proof. reflexivity. Qed.

Example parse_prec2 :
  parse "not a or -b * 2 + f(1)((n := 3),)"
  = POk (BoolOp Or (UnaryOp Not (Name "a"))
           (BinOp Add (BinOp Mult (UnaryOp USub (Name "b")) (Constant (CInt 2)))
              (Call (Call (Name "f") [Constant (CInt 1)])
                 [NamedExpr "n" (Constant (CInt 3))]))).
Proof. reflexivity. Qed.

Example parse_dangling : parse "a +" = PSyntaxError.
Proof. reflexivity. Qed.

Example parse_empty : parse "" = PSyntaxError.
Proof. reflexivity. Qed.

Example parse_outside : parse "a if b else c" = PUnsupported.
Proof. reflexivity. Qed.

Example ex_sum :
  eval_in_scope script_host "a + b" {[ "a" := VInt 2; "b" := VInt 3 ]}
  = (Return (VInt 5), {[ "a" := VInt 2; "b" := VInt 3 ]}).
Proof. vm_compute. reflexivity. Qed.

Example ex_max :
  fst (eval_in_scope script_host "max(x, y)" {[ "x" := VInt 10; "y" := VInt 20 ]})
  = Return (VInt 20).
Proof. vm_compute. reflexivity. Qed.

Example ex_sum3 :
  fst (eval_in_scope script_host "a + b + c" {[ "a" := VInt 11; "b" := VInt 22; "c" := VInt 33 ]})
  = Return (VInt 66).
Proof. vm_compute. reflexivity. Qed.

Example ex_product :
  fst (eval_in_scope script_host "b * 2" {[ "a" := VInt 11; "b" := VInt 22; "c" := VInt 33 ]})
  = Return (VInt 44).
Proof. vm_compute. reflexivity. Qed.

(** [eval(code)] sees the caller's frame; [eval_in_scope] does not. *)
Example ex_direct_eval :
  fst (direct_eval script_host "a + threshold") = Return (VInt 142)
  /\ fst (eval_in_scope script_host "a + threshold" ∅) = Raise (NameError "a").
Proof. vm_compute. split; reflexivity. Qed.

(** ** The tokenizer on identifiers *)

Lemma append_cons c (s t : string) : String.append (String c s) t = String c (String.append s t).
Proof. reflexivity. Qed.

Lemma length_append (s t : string) :
  String.length (String.append s t) = (String.length s + String.length t)%nat.
Proof.
  induction s as [|c s IH]; [reflexivity|].
  rewrite append_cons. cbn [String.length]. now rewrite IH.
Qed.

Lemma span_append p (w rest : string) :
  string_forall p w = true -> starts_with p rest = false ->
  span p (String.append w rest) = (w, rest).
Proof.
  intros Hw Hrest. induction w as [|c w IH].
  - change (String.append "" rest) with rest.
    destruct rest as [|d rest]; [reflexivity|].
    cbn in Hrest |- *. now rewrite Hrest.
  - cbn in Hw. apply andb_true_iff in Hw as [Hc Hw].
    rewrite append_cons. cbn [span]. rewrite Hc, (IH Hw). reflexivity.
Qed.

Lemma ident_start_not_space c : is_ident_start c = true -> is_space c = false.
Proof.
  destruct c as [[] [] [] [] [] [] [] []]; vm_compute; congruence.
Qed.

Lemma ident_start_char c : is_ident_start c = true -> is_ident_char c = true.
Proof. unfold is_ident_char. intros ->. reflexivity. Qed.

Lemma word_token_identifier n : is_identifier n = true -> word_token n = TName n.
Proof.
  unfold is_identifier. intros H.
  apply andb_true_iff in H as [_ H]. apply negb_true_iff in H.
  rewrite existsb_app in H. apply orb_false_iff in H as [Hk Hr].
  cbn [existsb fragment_keywords] in Hk.
  repeat (apply orb_false_iff in Hk as [? Hk]).
  unfold word_token. now repeat match goal with E : String.eqb n _ = false |- _ => rewrite E; clear E end; rewrite Hr.
Qed.

(** An identifier followed by something that cannot extend it is read as one
    NAME token. *)
Lemma lex_go_identifier fuel n rest :
  is_identifier n = true -> starts_with is_ident_char rest = false ->
  lex_go (S fuel) (String.append n rest) = TName n :: lex_go fuel rest.
Proof.
  intros Hid Hrest. pose proof (word_token_identifier n Hid) as Hw.
  unfold is_identifier in Hid.
  apply andb_true_iff in Hid as [Hid _]. apply andb_true_iff in Hid as [Hs Hall].
  destruct n as [|c n]; [discriminate|]. cbn in Hs.
  pose proof (span_append is_ident_char (String c n) rest Hall Hrest) as Hsp.
  rewrite append_cons in Hsp |- *. cbn [lex_go].
  rewrite (ident_start_not_space c Hs), Hs, Hsp, Hw. reflexivity.
Qed.

Lemma append_empty (s : string) : String.append s "" = s.
Proof. induction s as [|c s IH]; [reflexivity|]. rewrite append_cons. now rewrite IH. Qed.

Lemma identifier_length n : is_identifier n = true -> exists k, String.length n = S k.
Proof. destruct n; [discriminate|]. cbn. eauto. Qed.

Lemma lex_identifier n : is_identifier n = true -> lex n = [TName n].
Proof.
  intros Hid. unfold lex.
  destruct (identifier_length n Hid) as [k ->].
  rewrite <- (append_empty n) at 1.
  rewrite lex_go_identifier by (assumption || reflexivity).
  reflexivity.
Qed.

Lemma lex_go_space fuel s : lex_go (S fuel) (String " " s) = lex_go fuel s.
Proof. reflexivity. Qed.

Lemma lex_go_plus_space fuel s :
  lex_go (S fuel) (String "+" (String " " s)) = TPlus :: lex_go fuel (String " " s).
Proof. reflexivity. Qed.

Lemma lex_identifier_plus a b :
  is_identifier a = true -> is_identifier b = true ->
  lex (String.append a (String.append " + " b)) = [TName a; TPlus; TName b].
Proof.
  intros Ha Hb. unfold lex. rewrite !length_append.
  destruct (identifier_length a Ha) as [ka ->].
  destruct (identifier_length b Hb) as [kb ->].
  replace (S (S ka + (String.length " + " + S kb)))%nat
    with (S (S (S (S (S (S (ka + kb)))))))%nat by (cbn; lia).
  rewrite lex_go_identifier by (assumption || reflexivity).
  change (String.append " + " b) with (String " " (String "+" (String " " b))).
  rewrite lex_go_space, lex_go_plus_space, lex_go_space.
  rewrite <- (append_empty b) at 1.
  rewrite lex_go_identifier by (assumption || reflexivity).
  reflexivity.
Qed.

Lemma parse_identifier n : is_identifier n = true -> parse n = POk (Name n).
Proof. intros Hid. unfold parse. rewrite (lex_identifier n Hid). reflexivity. Qed.

Lemma parse_identifier_plus a b :
  is_identifier a = true -> is_identifier b = true ->
  parse (String.append a (String.append " + " b)) = POk (BinOp Add (Name a) (Name b)).
Proof.
  intros Ha Hb. unfold parse. rewrite (lex_identifier_plus a b Ha Hb). reflexivity.
Qed.

(** ** Name resolution *)


Lemma load_name_builtin σ g B n v :
  σ !! n = None -> g !! n = None -> B !! n = Some v -> load_name σ g B n = Return v.
Proof. unfold load_name. now intros -> -> ->. Qed.

Lemma load_name_unbound σ g B n :
  σ !! n = None -> g !! n = None -> B !! n = None ->
  load_name σ g B n = Raise (NameError n).
Proof. unfold load_name. now intros -> -> ->. Qed.

Lemma eval_globals_lookup n :
  eval_globals !! n = if String.eqb n "__builtins__" then Some VBuiltinsObj else None.
Proof.
  unfold eval_globals. destruct (String.eqb_spec n "__builtins__") as [->|Hne].
  - apply lookup_singleton_eq.
  - apply lookup_singleton_ne. congruence.
Qed.

Lemma frame_builtins_eval_globals h :
  frame_builtins h eval_globals = BuiltinsNs (h_builtins h).
Proof. unfold frame_builtins. now rewrite eval_globals_lookup. Qed.

Lemma resolve_local h g σ n v : σ !! n = Some v -> resolve h g σ n = Return v.
Proof. unfold resolve. now intros ->. Qed.

Lemma resolve_ns h g σ n B :
  frame_builtins h g = BuiltinsNs B -> resolve h g σ n = load_name σ g B n.
Proof.
  intros Hfb. unfold resolve, load_name. rewrite Hfb.
  destruct (σ !! n); [reflexivity|]. destruct (g !! n); reflexivity.
Qed.

Lemma resolve_builtin h σ n v :
  σ !! n = None -> eval_globals !! n = None -> h_builtins h !! n = Some v ->
  resolve h eval_globals σ n = Return v.
Proof.
  intros H1 H2 H3. rewrite (resolve_ns _ _ _ _ _ (frame_builtins_eval_globals h)).
  now apply load_name_builtin.
Qed.

(** In the frame [eval_in_scope] builds, the built-ins are the host's. *)
Lemma resolve_eval_globals h σ n :
  resolve h eval_globals σ n = load_name σ eval_globals (h_builtins h) n.
Proof. apply resolve_ns, frame_builtins_eval_globals. Qed.

Lemma eval_in_scope_name h n σ :
  is_identifier n = true ->
  eval_in_scope h n σ = (load_name σ eval_globals (h_builtins h) n, σ).
Proof.
  intros Hid. unfold eval_in_scope, py_eval. rewrite (parse_identifier n Hid).
  cbn [eval_expr]. now rewrite resolve_eval_globals.
Qed.

(** ** Arithmetic on scope-bound names *)

Lemma binary_add_integral x y :
  is_integral x = true -> is_integral y = true ->
  binary_op Add x y = Return (VInt (num x + num y)).
Proof.
  unfold is_integral, num, binary_op.
  destruct (as_int x), (as_int y); (discriminate || reflexivity).
Qed.

(** C5, as stated, fails at numbers that are floats: for a = nan, b = 1.0 the
    call returns the host's nan + 1.0, which is a NaN, and a NaN is not ==
    to anything, the very same sum included. *)
Lemma nan_sum_not_equal :
  fst (eval_in_scope script_host "a + b" {[ "a" := VFloat nan; "b" := VFloat 1 ]})
    = Return (VFloat (nan + 1))
  /\ binary_op Add (VFloat nan) (VFloat 1) = Return (VFloat (nan + 1))
  /\ py_eq (VFloat (nan + 1)) (VFloat (nan + 1)) = Return false.
Proof. repeat split; vm_compute; reflexivity. Qed.

(** C5, amended. An expression that is one + over two scope-bound names
    returns the sum of their values and leaves the scope as it was: for int
    and bool values the integer sum, which is == to itself; for two floats
    the IEEE 754 sum, which is == to itself exactly when it is not a NaN. *)
Theorem add_scope_names (h : host) (σ : namespace) (a b : string) (x y : value)
    (Ha : is_identifier a = true) (Hb : is_identifier b = true)
    (Hx : σ !! a = Some x) (Hy : σ !! b = Some y) :
  (is_integral x = true -> is_integral y = true ->
   eval_in_scope h (String.append a (String.append " + " b)) σ
     = (Return (VInt (num x + num y)), σ)
   /\ py_eq (VInt (num x + num y)) (VInt (num x + num y)) = Return true)
  /\ (forall fx fy, x = VFloat fx -> y = VFloat fy ->
      eval_in_scope h (String.append a (String.append " + " b)) σ
        = (Return (VFloat (fx + fy)), σ)
      /\ py_eq (VFloat (fx + fy)) (VFloat (fx + fy)) = Return (negb (is_nan (fx + fy)))).
Proof.
  assert (Hev : eval_in_scope h (String.append a (String.append " + " b)) σ
                = (binary_op Add x y, σ)).
  { unfold eval_in_scope, py_eval. rewrite (parse_identifier_plus a b Ha Hb).
    cbn [eval_expr]. unfold bind.
    now rewrite (resolve_local _ _ _ _ _ Hx), (resolve_local _ _ _ _ _ Hy). }
  rewrite Hev. split.
  - intros Hnx Hny. rewrite (binary_add_integral x y Hnx Hny). split; [reflexivity|].
    cbn. now rewrite Z.eqb_refl.
  - intros fx fy -> ->. split; [reflexivity|]. cbn. unfold is_nan.
    now rewrite negb_involutive.
Qed.

(** eval_in_scope('a + b', {'a': 2, 'b': 3}) is 5, and 0.5 + 0.25 is 0.75. *)
Lemma add_scope_names_witness :
  eval_in_scope script_host "a + b" {[ "a" := VInt 2; "b" := VInt 3 ]}
    = (Return (VInt 5), {[ "a" := VInt 2; "b" := VInt 3 ]})
  /\ eval_in_scope script_host "a + b" {[ "a" := VFloat 0.5; "b" := VFloat 0.25 ]}
     = (Return (VFloat 0.75), {[ "a" := VFloat 0.5; "b" := VFloat 0.25 ]}).
Proof.
  split.
  - destruct (add_scope_names script_host {[ "a" := VInt 2; "b" := VInt 3 ]}
                "a" "b" (VInt 2) (VInt 3)) as (H & _);
      [vm_compute; reflexivity..|].
    destruct H as [H _]; [reflexivity..|]. exact H.
  - destruct (add_scope_names script_host {[ "a" := VFloat 0.5; "b" := VFloat 0.25 ]}
                "a" "b" (VFloat 0.5) (VFloat 0.25)) as (_ & H);
      [vm_compute; reflexivity..|].
    destruct (H 0.5%float 0.25%float eq_refl eq_refl) as [H' _]. exact H'.
Defined.

(** ** Built-in calls *)

Lemma extremum_max_int x y :
  extremum true [VInt x; VInt y] = Return (VInt (Z.max x y)).
Proof.
  cbn. destruct (Z.ltb_spec x y).
  - now rewrite Z.max_r by lia.
  - now rewrite Z.max_l by lia.
Qed.

Lemma eval_max_xy h σ x y :
  h_builtins h !! "max" = Some (VBuiltin "max") -> σ !! "max" = None ->
  σ !! "x" = Some (VInt x) -> σ !! "y" = Some (VInt y) ->
  eval_in_scope h "max(x, y)" σ = (Return (VInt (Z.max x y)), σ).
Proof.
  intros Hmax Hfree Hx Hy. unfold eval_in_scope, py_eval.
  change (parse "max(x, y)") with (POk (Call (Name "max") [Name "x"; Name "y"])).
  cbn [eval_expr]. unfold bind, ret, lift.
  rewrite (resolve_builtin h σ "max" _ Hfree eq_refl Hmax).
  rewrite (resolve_local _ _ _ _ _ Hx), (resolve_local _ _ _ _ _ Hy).
  cbn [call_value]. change (call_builtin h "max") with (extremum true).
  now rewrite extremum_max_int.
Qed.

(** C7. Calls of built-ins work: with max bound to the built-in and not
    shadowed, max(x, y) over scope-bound integers is their maximum, the
    same with the two values exchanged, and with an empty scope
    max(1, 2) == 2. *)
Theorem builtin_max_call (h : host) (σ : namespace) (x y : Z)
    (Hmax : h_builtins h !! "max" = Some (VBuiltin "max"))
    (Hfree : σ !! "max" = None) :
  eval_in_scope h "max(x, y)" (<["x" := VInt x]> (<["y" := VInt y]> σ))
    = (Return (VInt (Z.max x y)), <["x" := VInt x]> (<["y" := VInt y]> σ))
  /\ fst (eval_in_scope h "max(x, y)" (<["x" := VInt y]> (<["y" := VInt x]> σ)))
     = fst (eval_in_scope h "max(x, y)" (<["x" := VInt x]> (<["y" := VInt y]> σ)))
  /\ eval_in_scope h "max(1, 2)" ∅ = (Return (VInt 2), ∅).
Proof.
  assert (Hgen : forall a b,
             eval_in_scope h "max(x, y)" (<["x" := VInt a]> (<["y" := VInt b]> σ))
             = (Return (VInt (Z.max a b)), <["x" := VInt a]> (<["y" := VInt b]> σ))).
  { intros a b. apply eval_max_xy; [assumption| | |].
    - rewrite !lookup_insert_ne by discriminate. assumption.
    - apply lookup_insert_eq.
    - rewrite lookup_insert_ne by discriminate. apply lookup_insert_eq. }
  split; [apply Hgen|]. split.
  - rewrite !Hgen. cbn. now rewrite Z.max_comm.
  - unfold eval_in_scope, py_eval.
    change (parse "max(1, 2)") with (POk (Call (Name "max") [Constant (CInt 1); Constant (CInt 2)])).
    cbn [eval_expr]. unfold bind, ret, lift.
    rewrite (resolve_builtin h ∅ "max" _ (lookup_empty _) eq_refl Hmax).
    reflexivity.
Qed.

(** max(x, y) is 20 for {x: 10, y: 20} and for {x: 20, y: 10}. *)
Lemma builtin_max_call_witness :
  fst (eval_in_scope script_host "max(x, y)" {[ "x" := VInt 10; "y" := VInt 20 ]})
    = Return (VInt 20)
  /\ fst (eval_in_scope script_host "max(x, y)" {[ "x" := VInt 20; "y" := VInt 10 ]})
     = Return (VInt 20)
  /\ fst (eval_in_scope script_host "max(1, 2)" ∅) = Return (VInt 2).
Proof.
  assert (Hmax : h_builtins script_host !! "max" = Some (VBuiltin "max"))
    by (vm_compute; reflexivity).
  destruct (builtin_max_call script_host ∅ 10 20 Hmax (lookup_empty _)) as (H1 & H2 & H3).
  split; [|split].
  - change ({[ "x" := VInt 10; "y" := VInt 20 ]} : namespace)
      with (<["x" := VInt 10]> (<["y" := VInt 20]> (∅ : namespace))).
    now rewrite H1.
  - change ({[ "x" := VInt 20; "y" := VInt 10 ]} : namespace)
      with (<["x" := VInt 20]> (<["y" := VInt 10]> (∅ : namespace))).
    rewrite H2, H1. reflexivity.
  - now rewrite H3.
Defined.

(** ** Syntax errors *)

(** C10. The empty expression string raises, whatever the scope: [eval]
    answers it with a SyntaxError and leaves the scope as it was. *)
Theorem empty_expression_raises (h : host) (σ : namespace) :
  eval_in_scope h "" σ = (Raise SyntaxError, σ)
  /\ is_raise (fst (eval_in_scope h "" σ)) = true
  /\ is_return (fst (eval_in_scope h "" σ)) = false.
Proof. repeat split. Qed.

(** No exception of the host has the class EvaluationError. *)
Lemma no_evaluation_error (e : exn) : exn_class e <> "EvaluationError".
Proof. destruct e; discriminate. Qed.


Lemma pbind_inv {A B} (r : presult A) (k : A -> presult B) b :
  pbind r k = POk b -> exists a, r = POk a /\ k a = POk b.
Proof. destruct r; cbn; try discriminate. eauto. Qed.

Lemma follow_error_not_ok {A} ts (a : A) : follow_error ts <> POk a.
Proof. destruct ts as [|[] ts]; discriminate. Qed.

Lemma operand_error_not_ok {A} ts (a : A) : operand_error ts <> POk a.
Proof. destruct ts as [|[] ts]; discriminate. Qed.

Lemma expect_rparen_inv e ts e' r :
  expect_rparen e ts = POk (e', r) -> e' = e /\ ts = TRParen :: r.
Proof.
  destruct ts as [|t ts]; [discriminate|].
  destruct t; try discriminate. cbn. now intros [= -> ->].
Qed.



















(** ** Induction over expressions, and the monad *)

Section expr_induction.
Variable P : expr -> Prop.
Hypothesis HName : forall n, P (Name n).
Hypothesis HConstant : forall c, P (Constant c).
Hypothesis HUnaryOp : forall op a, P a -> P (UnaryOp op a).
Hypothesis HBinOp : forall op a b, P a -> P b -> P (BinOp op a b).
Hypothesis HBoolOp : forall op a b, P a -> P b -> P (BoolOp op a b).
Hypothesis HCall : forall f args, P f -> Forall P args -> P (Call f args).
Hypothesis HNamedExpr : forall n a, P a -> P (NamedExpr n a).

Fixpoint expr_nested_ind (e : expr) : P e :=
  match e with
  | Name n => HName n
  | Constant c => HConstant c
  | UnaryOp op a => HUnaryOp op a (expr_nested_ind a)
  | BinOp op a b => HBinOp op a b (expr_nested_ind a) (expr_nested_ind b)
  | BoolOp op a b => HBoolOp op a b (expr_nested_ind a) (expr_nested_ind b)
  | Call f args =>
      HCall f args (expr_nested_ind f)
        ((fix go (l : list expr) : Forall P l :=
            match l with
            | [] => @List.Forall_nil expr P
            | x :: l' => @List.Forall_cons expr P x l' (expr_nested_ind x) (go l')
            end) args)
  | NamedExpr n a => HNamedExpr n a (expr_nested_ind a)
  end.
End expr_induction.

Lemma eval_expr_call h g f args :
  eval_expr h g (Call f args)
  = (let! fv := eval_expr h g f in
     let! vs := eval_args h g args in
     lift (call_value h fv vs)).
Proof. reflexivity. Qed.

Lemma eval_args_cons h g a es :
  eval_args h g (a :: es)
  = (let! v := eval_expr h g a in
     let! vs := eval_args h g es in
     ret (v :: vs)).
Proof. reflexivity. Qed.

Lemma bind_return {A B} (m : M A) (k : A -> M B) σ a σ' :
  m σ = (Return a, σ') -> bind m k σ = k a σ'.
Proof. unfold bind. now intros ->. Qed.

Lemma bind_not_return {A B} (m : M A) (k : A -> M B) σ :
  is_return (fst (m σ)) = false ->
  is_return (fst (bind m k σ)) = false.
Proof. unfold bind. destruct (m σ) as [[a|e|] σ']; cbn; congruence. Qed.

Lemma pure_bind {A B} (m : M A) (k : A -> M B) :
  pure_M m -> (forall a, pure_M (k a)) -> pure_M (bind m k).
Proof.
  intros Hm Hk σ. unfold bind. specialize (Hm σ).
  destruct (m σ) as [[a|e|] σ']; cbn in Hm |- *; subst; auto. apply Hk.
Qed.

Lemma pure_ret {A} (a : A) : pure_M (ret a).
Proof. intros σ. reflexivity. Qed.

Lemma pure_lift {A} (o : outcome A) : pure_M (lift o).
Proof. intros σ. reflexivity. Qed.

#[local] Hint Resolve pure_ret pure_lift : core.

(** ** The scope after the call *)

Lemma eval_args_pure h g args :
  Forall (fun a => no_assign a = true -> pure_M (eval_expr h g a)) args ->
  forallb no_assign args = true -> pure_M (eval_args h g args).
Proof.
  induction 1 as [|a args Ha _ IH]; intros Hna; [apply pure_ret|].
  cbn in Hna. apply andb_true_iff in Hna as [Hna1 Hna2].
  rewrite eval_args_cons. apply pure_bind; [auto|]. intros v.
  apply pure_bind; [auto|]. intros vs. apply pure_ret.
Qed.

(** Without an assignment expression, evaluation leaves the locals alone. *)
Lemma eval_expr_pure h g e : no_assign e = true -> pure_M (eval_expr h g e).
Proof.
  induction e as [n|v|op a IHa|op a b IHa IHb|op a b IHa IHb|f args IHf IHargs|n a IHa]
    using expr_nested_ind; intros Hna.
  - intros σ. reflexivity.
  - apply pure_ret.
  - cbn [eval_expr]. apply pure_bind; auto.
  - cbn in Hna. apply andb_true_iff in Hna as [Ha Hb].
    cbn [eval_expr]. apply pure_bind; [auto|]. intros x.
    apply pure_bind; [auto|]. auto.
  - cbn in Hna. apply andb_true_iff in Hna as [Ha Hb].
    destruct op; cbn [eval_expr]; (apply pure_bind; [auto|]); intros x;
      destruct (truthy x); auto.
  - cbn in Hna. apply andb_true_iff in Hna as [Hf Hargs].
    rewrite eval_expr_call. apply pure_bind; [auto|]. intros fv.
    apply pure_bind; [now apply eval_args_pure|]. auto.
  - discriminate.
Qed.

Lemma eval_in_scope_frame h code σ :
  code_no_assign code = true -> snd (eval_in_scope h code σ) = σ.
Proof.
  unfold code_no_assign, eval_in_scope, py_eval.
  destruct (parse code) as [e| |]; intros Hna; [|reflexivity..].
  now apply eval_expr_pure.
Qed.

(** C9. An expression with no assignment expression in it, evaluated within
    the model, leaves the scope mapping exactly as it was, whether the call
    returns a value or raises. *)
Theorem scope_unchanged (h : host) (code : string) (σ : namespace)
    (Hna : code_no_assign code = true)
    (Hm : in_model (fst (eval_in_scope h code σ)) = true) :
  snd (eval_in_scope h code σ) = σ
  /\ (forall k, snd (eval_in_scope h code σ) !! k = σ !! k)
  /\ (is_return (fst (eval_in_scope h code σ)) = true
      \/ is_raise (fst (eval_in_scope h code σ)) = true).
Proof.
  pose proof (eval_in_scope_frame h code σ Hna) as Hf.
  split; [assumption|]. split; [intros k; now rewrite Hf|].
  destruct (fst (eval_in_scope h code σ)); cbn in Hm |- *; auto.
Qed.

(** A returning and a raising call, neither of which touches the scope. *)
Lemma scope_unchanged_witness :
  snd (eval_in_scope script_host "b * 2" {[ "a" := VInt 11; "b" := VInt 22; "c" := VInt 33 ]})
    = {[ "a" := VInt 11; "b" := VInt 22; "c" := VInt 33 ]}
  /\ snd (eval_in_scope script_host "b // 0" {[ "b" := VInt 22 ]}) = {[ "b" := VInt 22 ]}.
Proof.
  split.
  - apply (scope_unchanged script_host "b * 2"
             {[ "a" := VInt 11; "b" := VInt 22; "c" := VInt 33 ]});
      vm_compute; reflexivity.
  - apply (scope_unchanged script_host "b // 0" {[ "b" := VInt 22 ]});
      vm_compute; reflexivity.
Defined.

(** With an assignment expression the scope is working storage, and the second
    call on the same dictionary sees what the first one wrote. *)
Example assignment_is_kept :
  let first := eval_in_scope script_host "(n := n + 1)" {[ "n" := VInt 0 ]} in
  first = (Return (VInt 1), {[ "n" := VInt 1 ]})
  /\ eval_in_scope script_host "(n := n + 1)" (snd first)
     = (Return (VInt 2), {[ "n" := VInt 2 ]}).
Proof. vm_compute. split; reflexivity. Qed.

(** ** Unbound names *)

Lemma keeps_bind {A B} n (m : M A) (k : A -> M B) :
  keeps n m -> (forall a, keeps n (k a)) -> keeps n (bind m k).
Proof.
  intros Hm Hk σ Hσ. unfold bind. specialize (Hm σ Hσ).
  destruct (m σ) as [[a|e|] σ']; cbn in Hm |- *; auto. now apply Hk.
Qed.

Lemma keeps_pure {A} n (m : M A) : pure_M m -> keeps n m.
Proof. intros Hm σ Hσ. now rewrite Hm. Qed.

Lemma fails_bind_l {A B} n (m : M A) (k : A -> M B) :
  fails n m -> fails n (bind m k).
Proof. intros Hm σ Hσ. apply bind_not_return. now apply Hm. Qed.

Lemma fails_bind_r {A B} n (m : M A) (k : A -> M B) :
  keeps n m -> (forall a, fails n (k a)) -> fails n (bind m k).
Proof.
  intros Hm Hk σ Hσ. unfold bind. specialize (Hm σ Hσ).
  destruct (m σ) as [[a|e|] σ']; cbn in Hm |- *; auto. now apply Hk.
Qed.

Lemma eval_args_keeps h g n args :
  Forall (fun a => ~ In n (stores a) -> keeps n (eval_expr h g a)) args ->
  ~ In n (flat_map stores args) -> keeps n (eval_args h g args).
Proof.
  induction 1 as [|a args Ha _ IH]; intros Hst.
  - apply keeps_pure, pure_ret.
  - cbn in Hst. rewrite in_app_iff in Hst.
    rewrite eval_args_cons. apply keeps_bind; [tauto|]. intros v.
    apply keeps_bind; [tauto|]. intros vs. apply keeps_pure, pure_ret.
Qed.

(** A name that the expression does not assign stays unbound. *)
Lemma eval_expr_keeps h g n e : ~ In n (stores e) -> keeps n (eval_expr h g e).
Proof.
  induction e as [m|c|op a IHa|op a b IHa IHb|op a b IHa IHb|f args IHf IHargs|m a IHa]
    using expr_nested_ind; cbn [stores]; intros Hst.
  - intros σ Hσ. exact Hσ.
  - apply keeps_pure, pure_ret.
  - cbn [eval_expr]. apply keeps_bind; [auto|]. intros x. apply keeps_pure, pure_lift.
  - rewrite in_app_iff in Hst. cbn [eval_expr].
    apply keeps_bind; [tauto|]. intros x. apply keeps_bind; [tauto|]. intros y.
    apply keeps_pure, pure_lift.
  - rewrite in_app_iff in Hst.
    destruct op; cbn [eval_expr]; (apply keeps_bind; [tauto|]); intros x;
      destruct (truthy x); try (apply keeps_pure, pure_ret); tauto.
  - rewrite in_app_iff in Hst. rewrite eval_expr_call.
    apply keeps_bind; [tauto|]. intros fv.
    apply keeps_bind; [apply eval_args_keeps; tauto|]. intros vs.
    apply keeps_pure, pure_lift.
  - cbn [eval_expr]. apply keeps_bind; [cbn in Hst; tauto|]. intros v σ Hσ.
    cbn. rewrite lookup_insert_ne; [assumption|]. cbn in Hst. tauto.
Qed.

Lemma eval_args_fails h g n args :
  Forall (fun a => strict a = true -> In n (loads a) -> ~ In n (stores a) ->
                   fails n (eval_expr h g a)) args ->
  forallb strict args = true -> In n (flat_map loads args) ->
  ~ In n (flat_map stores args) -> fails n (eval_args h g args).
Proof.
  induction 1 as [|a args Ha _ IH]; intros Hs Hl Hst; [destruct Hl|].
  cbn in Hs, Hl, Hst. apply andb_true_iff in Hs as [Hs1 Hs2].
  rewrite in_app_iff in Hl, Hst. rewrite eval_args_cons.
  destruct Hl as [Hl|Hl].
  - apply fails_bind_l. apply Ha; tauto.
  - apply fails_bind_r; [apply eval_expr_keeps; tauto|]. intros v.
    apply fails_bind_l. apply IH; tauto.
Qed.

(** Without short-circuit operators every name the expression loads is
    looked up unless an earlier fault stops the evaluation: if one of them is
    bound nowhere, no value is returned. *)
Lemma eval_expr_fails h g n e :
  frame_builtins h g = BuiltinsNs (h_builtins h) ->
  g !! n = None -> h_builtins h !! n = None ->
  strict e = true -> In n (loads e) -> ~ In n (stores e) ->
  fails n (eval_expr h g e).
Proof.
  intros Hfb Hg HB.
  induction e as [m|c|op a IHa|op a b IHa IHb|op a b IHa IHb|f args IHf IHargs|m a IHa]
    using expr_nested_ind; cbn [strict loads stores]; intros Hs Hl Hst.
  - destruct Hl as [->|[]]. intros σ Hσ. cbn.
    now rewrite (resolve_ns _ _ _ _ _ Hfb), (load_name_unbound _ _ _ _ Hσ Hg HB).
  - destruct Hl.
  - cbn [eval_expr]. apply fails_bind_l. auto.
  - apply andb_true_iff in Hs as [Hs1 Hs2]. rewrite in_app_iff in Hl, Hst.
    cbn [eval_expr]. destruct Hl as [Hl|Hl].
    + apply fails_bind_l. apply IHa; tauto.
    + apply fails_bind_r; [apply eval_expr_keeps; tauto|]. intros x.
      apply fails_bind_l. apply IHb; tauto.
  - discriminate.
  - apply andb_true_iff in Hs as [Hs1 Hs2]. rewrite in_app_iff in Hl, Hst.
    rewrite eval_expr_call. destruct Hl as [Hl|Hl].
    + apply fails_bind_l. apply IHf; tauto.
    + apply fails_bind_r; [apply eval_expr_keeps; tauto|]. intros fv.
      apply fails_bind_l. apply eval_args_fails; tauto.
  - cbn [eval_expr]. apply fails_bind_l. apply IHa; [assumption..|]. cbn in Hst. tauto.
Qed.

(** C1, as stated, fails twice over: evaluate("unknown_name", {}) raises the
    host's NameError, whose class is not EvaluationError; and an expression
    may reference an unknown name and still return a value. *)
Lemma unknown_name_not_wrapped :
  fst (eval_in_scope script_host "unknown_name" ∅) = Raise (NameError "unknown_name")
  /\ exn_class (NameError "unknown_name") <> "EvaluationError"
  /\ fst (eval_in_scope script_host "1 or unknown_name" ∅) = Return (VInt 1).
Proof.
  split; [vm_compute; reflexivity|]. split; [discriminate|]. vm_compute. reflexivity.
Qed.

(** C1, amended. Take a name bound neither in the scope nor in the built-in
    namespace and not [__builtins__].  The expression that is the name alone
    raises the host's NameError for it, which reaches the caller as it is,
    and leaves the scope as it was.  An expression without and/or that loads
    the name and does not assign it, evaluated within the model, raises. *)
Theorem unknown_name_raises (h : host) (σ : namespace) (code : string) (e : expr)
    (n : string)
    (Hp : parse code = POk e) (Hs : strict e = true)
    (Hl : In n (loads e)) (Hst : ~ In n (stores e))
    (Hσ : σ !! n = None) (Hg : n <> "__builtins__")
    (HB : h_builtins h !! n = None)
    (Hm : in_model (fst (eval_in_scope h code σ)) = true) :
  is_raise (fst (eval_in_scope h code σ)) = true
  /\ (e = Name n -> eval_in_scope h code σ = (Raise (NameError n), σ)).
Proof.
  assert (Hgl : eval_globals !! n = None).
  { rewrite eval_globals_lookup. destruct (String.eqb_spec n "__builtins__"); congruence. }
  unfold eval_in_scope, py_eval in *. rewrite Hp in *. split.
  - pose proof (eval_expr_fails h eval_globals n e (frame_builtins_eval_globals h)
                  Hgl HB Hs Hl Hst σ Hσ) as Hf.
    destruct (fst (eval_expr h eval_globals e σ)); cbn in *; congruence.
  - intros ->. cbn. now rewrite resolve_eval_globals, (load_name_unbound _ _ _ _ Hσ Hgl HB).
Qed.

(** evaluate("unknown_name", {}) raises NameError. *)
Lemma unknown_name_raises_witness :
  eval_in_scope script_host "unknown_name" ∅ = (Raise (NameError "unknown_name"), ∅).
Proof.
  destruct (unknown_name_raises script_host ∅ "unknown_name" (Name "unknown_name")
              "unknown_name") as (_ & H).
  - vm_compute. reflexivity.
  - reflexivity.
  - left. reflexivity.
  - intros [].
  - apply lookup_empty.
  - discriminate.
  - vm_compute. reflexivity.
  - vm_compute. reflexivity.
  - apply H. reflexivity.
Defined.

(** ** The names an expression can resolve *)




(** ** What the expression can see of the host *)

Lemma bind_ext {A B} (m1 m2 : M A) (k1 k2 : A -> M B) σ :
  (forall τ, m1 τ = m2 τ) -> (forall a τ, k1 a τ = k2 a τ) ->
  bind m1 k1 σ = bind m2 k2 σ.
Proof.
  intros Hm Hk. unfold bind. rewrite Hm.
  destruct (m2 σ) as [[a|e|] σ']; auto.
Qed.

Lemma call_value_ext h1 h2 f vs :
  h_globals h1 = h_globals h2 -> call_value h1 f vs = call_value h2 f vs.
Proof.
  intros HG. destruct f; try reflexivity. cbn. unfold call_builtin. now rewrite HG.
Qed.

Lemma eval_args_ext h1 h2 g args :
  Forall (fun a => forall σ, eval_expr h1 g a σ = eval_expr h2 g a σ) args ->
  forall σ, eval_args h1 g args σ = eval_args h2 g args σ.
Proof.
  induction 1 as [|a args Ha _ IH]; intros σ; [reflexivity|].
  rewrite !eval_args_cons. apply bind_ext; [assumption|]. intros v τ.
  apply bind_ext; [assumption|]. reflexivity.
Qed.

(** Evaluation reads the host's built-ins and, through calls, the script's
    module-level bindings; it never reads the caller's locals. *)
Lemma eval_expr_ext h1 h2 g e :
  h_builtins h1 = h_builtins h2 -> h_globals h1 = h_globals h2 ->
  forall σ, eval_expr h1 g e σ = eval_expr h2 g e σ.
Proof.
  intros HB HG.
  induction e as [m|c|op a IHa|op a b IHa IHb|op a b IHa IHb|f args IHf IHargs|m a IHa]
    using expr_nested_ind; intros σ.
  - cbn. unfold resolve, frame_builtins. now rewrite HB.
  - reflexivity.
  - cbn [eval_expr]. apply bind_ext; [assumption|]. reflexivity.
  - cbn [eval_expr]. apply bind_ext; [assumption|]. intros x τ.
    apply bind_ext; [assumption|]. reflexivity.
  - destruct op; cbn [eval_expr]; (apply bind_ext; [assumption|]); intros x τ;
      destruct (truthy x); auto.
  - rewrite !eval_expr_call. apply bind_ext; [assumption|]. intros fv τ.
    apply bind_ext; [now apply eval_args_ext|]. intros vs τ'.
    unfold lift. now rewrite (call_value_ext h1 h2 fv vs HG).
  - cbn [eval_expr]. apply bind_ext; [assumption|]. reflexivity.
Qed.

Lemma agree_bind {A B} (Q : A -> Prop) (R : B -> Prop) (m1 m2 : M A) (k1 k2 : A -> M B) :
  agree Q m1 m2 -> (forall a, Q a -> agree R (k1 a) (k2 a)) ->
  agree R (bind m1 k1) (bind m2 k2).
Proof.
  intros Hm Hk σ Hσ. destruct (Hm σ Hσ) as (Heq & Hs & HQ).
  unfold bind. rewrite <- Heq.
  destruct (m1 σ) as [[a|e|] σ']; cbn in Hs, HQ |- *.
  - apply Hk; auto.
  - repeat split; [assumption|discriminate].
  - repeat split; [assumption|discriminate].
Qed.

Lemma agree_lift {A} (Q : A -> Prop) (o1 o2 : outcome A) :
  o1 = o2 -> (forall a, o1 = Return a -> Q a) -> agree Q (lift o1) (lift o2).
Proof. intros <- HQ σ Hσ. unfold lift. cbn. auto. Qed.

Lemma agree_ret {A} (Q : A -> Prop) (a : A) : Q a -> agree Q (ret a) (ret a).
Proof. intros HQ σ Hσ. unfold ret. cbn. repeat split; [assumption|]. now intros b [= <-]. Qed.

Lemma extremum_loop_clean gt cur items v :
  clean cur -> Forall clean items -> extremum_loop gt cur items = Return v -> clean v.
Proof.
  intros Hcur Hitems. revert cur Hcur.
  induction Hitems as [|item items Hitem _ IH]; intros cur Hcur; cbn.
  - now intros [= <-].
  - destruct (rich_compare gt item cur) as [[]|e|]; try discriminate; now apply IH.
Qed.

Lemma extremum_clean gt args v :
  Forall clean args -> extremum gt args = Return v -> clean v.
Proof.
  intros Hargs. destruct Hargs as [|a args Ha Hargs]; [discriminate|].
  destruct Hargs as [|b args Hb Hargs].
  - cbn. destruct a; discriminate.
  - apply extremum_loop_clean; [assumption|]. now constructor.
Qed.

(** Called on clean values, a clean callable does the same in both hosts and
    returns a clean value. *)
Lemma call_value_clean h1 h2 f vs :
  clean f -> Forall clean vs ->
  call_value h1 f vs = call_value h2 f vs
  /\ forall v, call_value h1 f vs = Return v -> clean v.
Proof.
  intros Hf Hvs. destruct f as [| | | |name| | |]; try (split; [reflexivity|discriminate]).
  unfold clean in Hf. cbn in Hf |- *. unfold call_builtin. rewrite Hf.
  destruct (String.eqb name "max"); [split; [reflexivity|intros v; now apply extremum_clean]|].
  destruct (String.eqb name "min"); [split; [reflexivity|intros v; now apply extremum_clean]|].
  destruct (String.eqb name "abs").
  { split; [reflexivity|]. intros v.
    destruct vs as [|w [|? ?]]; try discriminate.
    destruct (as_int w); [now intros [= <-]|].
    destruct w; try discriminate. now intros [= <-]. }
  destruct (String.eqb name "getattr"); [|split; [reflexivity|discriminate]].
  destruct Hvs as [|w vs Hw Hvs]; [split; [reflexivity|discriminate]|].
  destruct w; try (split; [reflexivity|discriminate]). discriminate Hw.
Qed.

Lemma eval_args_agree h1 h2 g args :
  Forall (fun a => ~ In "__import__" (loads a) ->
                   agree clean (eval_expr h1 g a) (eval_expr h2 g a)) args ->
  ~ In "__import__" (flat_map loads args) ->
  agree (Forall clean) (eval_args h1 g args) (eval_args h2 g args).
Proof.
  induction 1 as [|a args Ha _ IH]; intros Hl.
  - apply agree_ret. constructor.
  - cbn in Hl. rewrite in_app_iff in Hl. rewrite !eval_args_cons.
    apply (agree_bind clean); [tauto|]. intros v Hv.
    apply (agree_bind (Forall clean)); [tauto|]. intros vs Hvs.
    apply agree_ret. now constructor.
Qed.

(** An expression that does not name the importer, run on sealed locals,
    never holds the module: it does the same in two hosts with the same
    built-ins, whatever the script and the caller have bound. *)
Lemma eval_expr_agree h1 h2 g e :
  frame_builtins h1 g = BuiltinsNs (h_builtins h1) ->
  h_builtins h1 = h_builtins h2 -> importer_named (h_builtins h1) -> sealed g ->
  ~ In "__import__" (loads e) ->
  agree clean (eval_expr h1 g e) (eval_expr h2 g e).
Proof.
  intros Hfb HB Himp Hg.
  assert (Hres : forall σ m, resolve h2 g σ m = resolve h1 g σ m).
  { intros σ m. unfold resolve, frame_builtins. now rewrite HB. }
  induction e as [m|c|op a IHa|op a b IHa IHb|op a b IHa IHb|f args IHf IHargs|m a IHa]
    using expr_nested_ind; cbn [loads]; intros Hl.
  - intros σ Hσ. cbn. rewrite Hres, (resolve_ns _ _ _ _ _ Hfb). repeat split; [assumption|].
    intros v. unfold load_name.
    destruct (σ !! m) as [w|] eqn:E1; [intros [= <-]; exact (Hσ _ _ E1)|].
    destruct (g !! m) as [w|] eqn:E2; [intros [= <-]; exact (Hg _ _ E2)|].
    destruct (h_builtins h1 !! m) as [w|] eqn:E3; [|discriminate].
    intros [= <-]. unfold clean. destruct (reaches_main w) eqn:Ew; [|reflexivity].
    exfalso. apply Hl. left. exact (Himp _ _ E3 Ew).
  - cbn [eval_expr]. apply agree_ret. now destruct c.
  - cbn [eval_expr]. apply (agree_bind clean); [auto|]. intros x Hx.
    apply agree_lift; [reflexivity|]. intros v. destruct op; cbn.
    + destruct (as_int x); [now intros [= <-]|].
      destruct x; try discriminate. now intros [= <-].
    + now intros [= <-].
  - rewrite in_app_iff in Hl. cbn [eval_expr].
    apply (agree_bind clean); [tauto|]. intros x Hx.
    apply (agree_bind clean); [tauto|]. intros y Hy.
    apply agree_lift; [reflexivity|]. intros v. unfold binary_op.
    destruct (as_int x), (as_int y), op, x, y; try discriminate;
      try (destruct (_ =? 0)%Z; try discriminate); now intros [= <-].
  - rewrite in_app_iff in Hl.
    destruct op; cbn [eval_expr]; (apply (agree_bind clean); [tauto|]); intros x Hx;
      destruct (truthy x); try (now apply agree_ret); tauto.
  - rewrite in_app_iff in Hl. rewrite !eval_expr_call.
    apply (agree_bind clean); [tauto|]. intros fv Hfv.
    apply (agree_bind (Forall clean)); [apply eval_args_agree; tauto|]. intros vs Hvs.
    destruct (call_value_clean h1 h2 fv vs Hfv Hvs) as [Heq Hcl].
    now apply agree_lift.
  - cbn [eval_expr]. apply (agree_bind clean); [auto|]. intros v Hv σ Hσ. cbn.
    repeat split.
    + intros k w. rewrite lookup_insert. case_decide; [now intros [= <-]|apply Hσ].
    + now intros w [= <-].
Qed.

Lemma eval_globals_sealed : sealed eval_globals.
Proof.
  intros k v. rewrite eval_globals_lookup.
  destruct (String.eqb k "__builtins__"); [|discriminate]. now intros [= <-].
Qed.

(** C3, as stated, fails: the same call, with the same expression and the
    same scope, made in two hosts that differ only in a module-level variable
    of the running script and in the caller's locals, returns that variable's
    value in each, 42 in one and 7 in the other. *)
Lemma module_variable_visible :
  h_builtins script_host = h_builtins other_host
  /\ fst (eval_in_scope script_host "getattr(__import__(m), k)"
            {[ "m" := VStr "__main__"; "k" := VStr "threshold" ]}) = Return (VInt 42)
  /\ fst (eval_in_scope other_host "getattr(__import__(m), k)"
            {[ "m" := VStr "__main__"; "k" := VStr "threshold" ]}) = Return (VInt 7).
Proof. split; [reflexivity|]. split; vm_compute; reflexivity. Qed.

(** C3, amended. Between two hosts with the same built-in namespace, for an
    expression evaluated within the model: a name resolves the same way,
    whatever the script or the caller has bound; the caller's local variables
    do not change the outcome; and an expression that does not name
    [__import__], evaluated on a scope that holds neither the importer nor a
    module object, has the same outcome whatever the script has bound at
    module level.  The script's module-level variables are within reach only
    through the built-ins that hand them out. *)
Theorem ambient_isolation (h1 h2 : host) (code : string) (σ : namespace)
    (HB : h_builtins h1 = h_builtins h2)
    (Hm : in_model (fst (eval_in_scope h1 code σ)) = true) :
  (is_identifier code = true -> eval_in_scope h1 code σ = eval_in_scope h2 code σ)
  /\ (h_globals h1 = h_globals h2 -> eval_in_scope h1 code σ = eval_in_scope h2 code σ)
  /\ (forall e, parse code = POk e -> ~ In "__import__" (loads e) ->
                sealed σ -> importer_named (h_builtins h1) ->
                eval_in_scope h1 code σ = eval_in_scope h2 code σ).
Proof.
  split; [|split].
  - intros Hid. rewrite !eval_in_scope_name by assumption. now rewrite HB.
  - intros HG. unfold eval_in_scope, py_eval.
    destruct (parse code); [|reflexivity..]. now apply eval_expr_ext.
  - intros e Hp Hl Hσ Himp. unfold eval_in_scope, py_eval. rewrite Hp.
    now apply (eval_expr_agree h1 h2 eval_globals e (frame_builtins_eval_globals h1)
                 HB Himp eval_globals_sealed Hl).
Qed.

(** max(x, y) gives the same in the two hosts, which bind threshold and the
    caller's a differently. *)
Lemma ambient_isolation_witness :
  eval_in_scope script_host "max(x, y)" {[ "x" := VInt 10; "y" := VInt 20 ]}
  = eval_in_scope other_host "max(x, y)" {[ "x" := VInt 10; "y" := VInt 20 ]}.
Proof.
  destruct (ambient_isolation script_host other_host "max(x, y)"
              {[ "x" := VInt 10; "y" := VInt 20 ]} eq_refl) as (_ & _ & H).
  { vm_compute. reflexivity. }
  apply (H (Call (Name "max") [Name "x"; Name "y"])).
  - vm_compute. reflexivity.
  - cbn. intros [H1|[H1|[H1|[]]]]; discriminate.
  - unfold sealed, clean. refine (bool_decide_unpack _ _). vm_compute. exact I.
  - unfold importer_named. refine (bool_decide_unpack _ _). vm_compute. exact I.
Defined.

(** ** Successive calls *)

(** C8, as stated, fails: an expression whose evaluation has no side effect
    is called twice with the same string and the same scope, which the first
    call leaves as it was; between the calls the script binds its
    module-level [threshold] anew, and the second call returns 7 where the
    first returned 42. *)
Lemma outcome_follows_module_state :
  eval_in_scope script_host "getattr(__import__(m), k)"
    {[ "m" := VStr "__main__"; "k" := VStr "threshold" ]}
  = (Return (VInt 42), {[ "m" := VStr "__main__"; "k" := VStr "threshold" ]})
  /\ eval_in_scope rebound_host "getattr(__import__(m), k)"
       {[ "m" := VStr "__main__"; "k" := VStr "threshold" ]}
     = (Return (VInt 7), {[ "m" := VStr "__main__"; "k" := VStr "threshold" ]})
  /\ code_no_assign "getattr(__import__(m), k)" = true.
Proof. repeat split; vm_compute; reflexivity. Qed.

(** C8, amended. The call keeps no state of its own and reads none of the
    host's but the built-ins: for an expression that has no assignment
    expression in it and does not name [__import__], evaluated within the
    model on a scope that holds neither the importer nor a module object, a
    second call on the same scope dictionary gives the same outcome and scope
    as the first, even if the script's module-level variables and the
    caller's locals have changed in between ([h2] is the host at the second
    call). *)
Theorem eval_in_scope_stateless (h1 h2 : host) (code : string) (e : expr)
    (σ : namespace)
    (HB : h_builtins h1 = h_builtins h2)
    (Hp : parse code = POk e) (Hna : no_assign e = true)
    (Hl : ~ In "__import__" (loads e))
    (Hσ : sealed σ) (Himp : importer_named (h_builtins h1))
    (Hm : in_model (fst (eval_in_scope h1 code σ)) = true) :
  eval_in_scope h2 code (snd (eval_in_scope h1 code σ)) = eval_in_scope h1 code σ.
Proof.
  unfold eval_in_scope, py_eval. rewrite Hp.
  rewrite (eval_expr_pure h1 eval_globals e Hna σ).
  symmetry.
  now apply (eval_expr_agree h1 h2 eval_globals e (frame_builtins_eval_globals h1)
               HB Himp eval_globals_sealed Hl).
Qed.

(** Two calls of eval_in_scope('a + b + c', scope) on the script's scope, the
    script's threshold bound anew in between. *)
Lemma eval_in_scope_stateless_witness :
  eval_in_scope rebound_host "a + b + c"
    (snd (eval_in_scope script_host "a + b + c"
            {[ "a" := VInt 11; "b" := VInt 22; "c" := VInt 33 ]}))
  = (Return (VInt 66), {[ "a" := VInt 11; "b" := VInt 22; "c" := VInt 33 ]}).
Proof.
  rewrite (eval_in_scope_stateless script_host rebound_host "a + b + c"
             (BinOp Add (BinOp Add (Name "a") (Name "b")) (Name "c"))
             {[ "a" := VInt 11; "b" := VInt 22; "c" := VInt 33 ]}).
  - vm_compute. reflexivity.
  - reflexivity.
  - vm_compute. reflexivity.
  - reflexivity.
  - cbn. intros [H1|[H1|[H1|[]]]]; discriminate.
  - unfold sealed, clean. refine (bool_decide_unpack _ _). vm_compute. exact I.
  - unfold importer_named. refine (bool_decide_unpack _ _). vm_compute. exact I.
  - vm_compute. reflexivity.
Defined.

(** * Further properties of the call *)

(** ** What an evaluation writes *)

Lemma bind_inv_return {A B} (m : M A) (k : A -> M B) σ b σ' :
  bind m k σ = (Return b, σ') ->
  exists a σ1, m σ = (Return a, σ1) /\ k a σ1 = (Return b, σ').
Proof.
  unfold bind. destruct (m σ) as [[a|e|] σ1]; try discriminate. eauto.
Qed.

Lemma bind_inv_raise {A B} (m : M A) (k : A -> M B) σ x :
  fst (bind m k σ) = Raise x ->
  fst (m σ) = Raise x
  \/ exists a σ1, m σ = (Return a, σ1) /\ fst (k a σ1) = Raise x.
Proof.
  unfold bind. destruct (m σ) as [[a|e|] σ1]; cbn.
  - intros H. right. exists a, σ1. split; [reflexivity|assumption].
  - intros [= ->]. now left.
  - discriminate.
Qed.

Lemma untouched_bind {A B} k (m : M A) (f : A -> M B) :
  untouched k m -> (forall a, untouched k (f a)) -> untouched k (bind m f).
Proof.
  intros Hm Hf σ. unfold bind. specialize (Hm σ).
  destruct (m σ) as [[a|e|] σ']; cbn in Hm |- *; auto. now rewrite Hf.
Qed.

Lemma untouched_pure {A} k (m : M A) : pure_M m -> untouched k m.
Proof. intros Hm σ. now rewrite Hm. Qed.

Lemma eval_args_untouched h g k args :
  Forall (fun a => ~ In k (stores a) -> untouched k (eval_expr h g a)) args ->
  ~ In k (flat_map stores args) -> untouched k (eval_args h g args).
Proof.
  induction 1 as [|a args Ha _ IH]; intros Hst.
  - apply untouched_pure, pure_ret.
  - cbn in Hst. rewrite in_app_iff in Hst.
    rewrite eval_args_cons. apply untouched_bind; [tauto|]. intros v.
    apply untouched_bind; [tauto|]. intros vs. apply untouched_pure, pure_ret.
Qed.

Lemma eval_expr_untouched h g k e : ~ In k (stores e) -> untouched k (eval_expr h g e).
Proof.
  induction e as [m|c|op a IHa|op a b IHa IHb|op a b IHa IHb|f args IHf IHargs|m a IHa]
    using expr_nested_ind; cbn [stores]; intros Hst.
  - intros σ. reflexivity.
  - apply untouched_pure, pure_ret.
  - cbn [eval_expr]. apply untouched_bind; [auto|]. intros x. apply untouched_pure, pure_lift.
  - rewrite in_app_iff in Hst. cbn [eval_expr].
    apply untouched_bind; [tauto|]. intros x. apply untouched_bind; [tauto|]. intros y.
    apply untouched_pure, pure_lift.
  - rewrite in_app_iff in Hst.
    destruct op; cbn [eval_expr]; (apply untouched_bind; [tauto|]); intros x;
      destruct (truthy x); try (apply untouched_pure, pure_ret); tauto.
  - rewrite in_app_iff in Hst. rewrite eval_expr_call.
    apply untouched_bind; [tauto|]. intros fv.
    apply untouched_bind; [apply eval_args_untouched; tauto|]. intros vs.
    apply untouched_pure, pure_lift.
  - cbn [eval_expr]. apply untouched_bind; [cbn in Hst; tauto|]. intros v σ.
    cbn. apply lookup_insert_ne. cbn in Hst. tauto.
Qed.

(** X1. The call, evaluated within the model, writes only the names the
    expression assigns: every other key of the scope keeps its value, and
    every other name stays absent, whether the call returns or raises. *)
Theorem unassigned_keys_kept (h : host) (code : string) (e : expr) (σ : namespace)
    (k : string)
    (Hp : parse code = POk e) (Hk : ~ In k (stores e))
    (Hm : in_model (fst (eval_in_scope h code σ)) = true) :
  snd (eval_in_scope h code σ) !! k = σ !! k.
Proof.
  unfold eval_in_scope, py_eval. rewrite Hp. now apply eval_expr_untouched.
Qed.

(** (total := a + b) writes total and leaves a, b and every other name. *)
Lemma unassigned_keys_kept_witness :
  snd (eval_in_scope script_host "(total := a + b)" {[ "a" := VInt 2; "b" := VInt 3 ]}) !! "a"
    = Some (VInt 2)
  /\ snd (eval_in_scope script_host "(total := a + b)" {[ "a" := VInt 2; "b" := VInt 3 ]}) !! "total"
     = Some (VInt 5).
Proof.
  split.
  - rewrite (unassigned_keys_kept script_host "(total := a + b)"
               (NamedExpr "total" (BinOp Add (Name "a") (Name "b")))
               {[ "a" := VInt 2; "b" := VInt 3 ]} "a").
    + vm_compute. reflexivity.
    + vm_compute. reflexivity.
    + cbn. intros [H|[]]. discriminate.
    + vm_compute. reflexivity.
  - vm_compute. reflexivity.
Defined.

Lemma grows_bind {A B} (m : M A) (f : A -> M B) :
  grows m -> (forall a, grows (f a)) -> grows (bind m f).
Proof.
  intros Hm Hf σ k Hk. unfold bind. specialize (Hm σ k Hk).
  destruct (m σ) as [[a|e|] σ']; cbn in Hm |- *; auto. now apply Hf.
Qed.

Lemma grows_pure {A} (m : M A) : pure_M m -> grows m.
Proof. intros Hm σ k Hk. now rewrite Hm. Qed.

Lemma eval_args_grows h g args :
  Forall (fun a => grows (eval_expr h g a)) args -> grows (eval_args h g args).
Proof.
  induction 1 as [|a args Ha _ IH].
  - apply grows_pure, pure_ret.
  - rewrite eval_args_cons. apply grows_bind; [assumption|]. intros v.
    apply grows_bind; [assumption|]. intros vs. apply grows_pure, pure_ret.
Qed.

Lemma eval_expr_grows h g e : grows (eval_expr h g e).
Proof.
  induction e as [m|c|op a IHa|op a b IHa IHb|op a b IHa IHb|f args IHf IHargs|m a IHa]
    using expr_nested_ind.
  - intros σ k Hk. exact Hk.
  - apply grows_pure, pure_ret.
  - cbn [eval_expr]. apply grows_bind; [assumption|]. intros x. apply grows_pure, pure_lift.
  - cbn [eval_expr]. apply grows_bind; [assumption|]. intros x.
    apply grows_bind; [assumption|]. intros y. apply grows_pure, pure_lift.
  - destruct op; cbn [eval_expr]; (apply grows_bind; [assumption|]); intros x;
      destruct (truthy x); try (apply grows_pure, pure_ret); assumption.
  - rewrite eval_expr_call. apply grows_bind; [assumption|]. intros fv.
    apply grows_bind; [now apply eval_args_grows|]. intros vs.
    apply grows_pure, pure_lift.
  - cbn [eval_expr]. apply grows_bind; [assumption|]. intros v σ k Hk. cbn.
    rewrite lookup_insert. case_decide; [eauto|assumption].
Qed.

Lemma eval_args_grows_all h g args : grows (eval_args h g args).
Proof.
  induction args as [|a args IH]; [apply grows_pure, pure_ret|].
  rewrite eval_args_cons. apply grows_bind; [apply eval_expr_grows|]. intros v.
  apply grows_bind; [assumption|]. intros vs. apply grows_pure, pure_ret.
Qed.

Lemma grows_none {A} (m : M A) σ k :
  grows m -> snd (m σ) !! k = None -> σ !! k = None.
Proof.
  intros Hm Hn. destruct (σ !! k) as [v|] eqn:E; [|reflexivity].
  destruct (Hm σ k) as [w Hw]; [rewrite E; eauto|]. congruence.
Qed.

(** X2. No call, evaluated within the model, removes a key from the scope: a
    name bound when the call is made is bound when it comes back, whatever
    the expression and whether it returns, raises or fails to compile. *)
Theorem scope_keys_survive (h : host) (code : string) (σ : namespace) (k : string)
    (Hk : is_Some (σ !! k))
    (Hm : in_model (fst (eval_in_scope h code σ)) = true) :
  is_Some (snd (eval_in_scope h code σ) !! k).
Proof.
  unfold eval_in_scope, py_eval. destruct (parse code) as [e| |]; [|assumption..].
  now apply eval_expr_grows.
Qed.

Lemma scope_keys_survive_witness :
  is_Some (snd (eval_in_scope script_host "(a := None) + unknown_name" {[ "a" := VInt 2 ]}) !! "a").
Proof.
  apply (scope_keys_survive script_host "(a := None) + unknown_name" {[ "a" := VInt 2 ]} "a").
  - vm_compute. eauto.
  - vm_compute. reflexivity.
Defined.

Lemma eval_args_stores h g args :
  Forall (fun a => strict a = true -> forall σ v σ', eval_expr h g a σ = (Return v, σ') ->
                   forall k, In k (stores a) -> is_Some (σ' !! k)) args ->
  forallb strict args = true ->
  forall σ vs σ', eval_args h g args σ = (Return vs, σ') ->
  forall k, In k (flat_map stores args) -> is_Some (σ' !! k).
Proof.
  induction 1 as [|a args Ha Hargs IH]; intros Hs σ vs σ' Hev k Hk; [destruct Hk|].
  cbn in Hs, Hk. apply andb_true_iff in Hs as [Hs1 Hs2]. rewrite in_app_iff in Hk.
  rewrite eval_args_cons in Hev.
  apply bind_inv_return in Hev as (v & σ1 & Hev1 & Hev).
  apply bind_inv_return in Hev as (ws & σ2 & Hev2 & Hev).
  injection Hev as _ <-.
  destruct Hk as [Hk|Hk].
  - pose proof (Ha Hs1 _ _ _ Hev1 k Hk) as Hb.
    pose proof (eval_args_grows_all h g args σ1 k Hb) as Hg. now rewrite Hev2 in Hg.
  - exact (IH Hs2 _ _ _ Hev2 k Hk).
Qed.

Lemma eval_expr_stores h g e :
  strict e = true ->
  forall σ v σ', eval_expr h g e σ = (Return v, σ') ->
  forall k, In k (stores e) -> is_Some (σ' !! k).
Proof.
  induction e as [m|c|op a IHa|op a b IHa IHb|op a b IHa IHb|f args IHf IHargs|m a IHa]
    using expr_nested_ind; cbn [strict stores]; intros Hs σ v σ' Hev k Hk.
  - destruct Hk.
  - destruct Hk.
  - cbn [eval_expr] in Hev. apply bind_inv_return in Hev as (x & σ1 & Hev1 & Hev).
    unfold lift in Hev. injection Hev as _ <-. eauto.
  - apply andb_true_iff in Hs as [Hs1 Hs2]. rewrite in_app_iff in Hk.
    cbn [eval_expr] in Hev. apply bind_inv_return in Hev as (x & σ1 & Hev1 & Hev).
    apply bind_inv_return in Hev as (y & σ2 & Hev2 & Hev).
    unfold lift in Hev. injection Hev as _ <-.
    destruct Hk as [Hk|Hk]; [|eauto].
    pose proof (eval_expr_grows h g b σ1 k (IHa Hs1 _ _ _ Hev1 k Hk)) as Hb.
    now rewrite Hev2 in Hb.
  - discriminate.
  - apply andb_true_iff in Hs as [Hs1 Hs2]. rewrite in_app_iff in Hk.
    rewrite eval_expr_call in Hev. apply bind_inv_return in Hev as (fv & σ1 & Hev1 & Hev).
    apply bind_inv_return in Hev as (vs & σ2 & Hev2 & Hev).
    unfold lift in Hev. injection Hev as _ <-.
    destruct Hk as [Hk|Hk].
    + pose proof (eval_args_grows_all h g args σ1 k (IHf Hs1 _ _ _ Hev1 k Hk)) as Hg.
      now rewrite Hev2 in Hg.
    + exact (eval_args_stores h g args IHargs Hs2 _ _ _ Hev2 k Hk).
  - cbn [eval_expr] in Hev. apply bind_inv_return in Hev as (x & σ1 & Hev1 & Hev).
    injection Hev as _ <-. rewrite lookup_insert. case_decide; [eauto|].
    destruct Hk as [Hk|Hk]; [congruence|]. eauto.
Qed.

(** X3. When an expression without and/or returns a value, every name it
    assigns is a key of the scope afterwards. *)
Theorem assigned_names_bound (h : host) (code : string) (e : expr) (σ : namespace)
    (k : string)
    (Hp : parse code = POk e) (Hs : strict e = true)
    (Hr : is_return (fst (eval_in_scope h code σ)) = true)
    (Hk : In k (stores e)) :
  is_Some (snd (eval_in_scope h code σ) !! k).
Proof.
  unfold eval_in_scope, py_eval in *. rewrite Hp in *.
  destruct (eval_expr h eval_globals e σ) as [[v|x|] σ'] eqn:Hev; try discriminate.
  exact (eval_expr_stores h eval_globals e Hs _ _ _ Hev k Hk).
Qed.

Lemma assigned_names_bound_witness :
  is_Some (snd (eval_in_scope script_host "(lo := min(x, y)) + (hi := max(x, y))"
                  {[ "x" := VInt 10; "y" := VInt 20 ]}) !! "hi").
Proof.
  apply (assigned_names_bound script_host "(lo := min(x, y)) + (hi := max(x, y))"
           (BinOp Add (NamedExpr "lo" (Call (Name "min") [Name "x"; Name "y"]))
                      (NamedExpr "hi" (Call (Name "max") [Name "x"; Name "y"])))).
  - vm_compute. reflexivity.
  - reflexivity.
  - vm_compute. reflexivity.
  - cbn. auto.
Defined.

(** ** Expressions that name scope keys only *)

Lemma bind_ext_at {A B} (m1 m2 : M A) (k1 k2 : A -> M B) σ :
  m1 σ = m2 σ ->
  (forall a σ', m1 σ = (Return a, σ') -> k1 a σ' = k2 a σ') ->
  bind m1 k1 σ = bind m2 k2 σ.
Proof.
  intros Hm Hk. unfold bind. rewrite <- Hm.
  destruct (m1 σ) as [[a|e|] σ']; auto.
Qed.

Lemma eval_args_scope_only h1 h2 g args :
  h_globals h1 = h_globals h2 ->
  Forall (fun a => forall σ, (forall n, In n (loads a) -> is_Some (σ !! n)) ->
                   eval_expr h1 g a σ = eval_expr h2 g a σ) args ->
  forall σ, (forall n, In n (flat_map loads args) -> is_Some (σ !! n)) ->
  eval_args h1 g args σ = eval_args h2 g args σ.
Proof.
  intros HG. induction 1 as [|a args Ha _ IH]; intros σ Hb; [reflexivity|].
  cbn in Hb. rewrite !eval_args_cons.
  apply bind_ext_at; [apply Ha; intros n Hn; apply Hb, in_app_iff; now left|].
  intros v σ1 Hev. apply bind_ext_at; [|reflexivity].
  apply IH. intros n Hn.
  pose proof (eval_expr_grows h1 g a σ n) as Hg. rewrite Hev in Hg.
  apply Hg, Hb, in_app_iff. now right.
Qed.

(** An expression all of whose names are keys of the locals never looks at
    the built-in namespace. *)
Lemma eval_expr_scope_only h1 h2 g e :
  h_globals h1 = h_globals h2 ->
  forall σ, (forall n, In n (loads e) -> is_Some (σ !! n)) ->
  eval_expr h1 g e σ = eval_expr h2 g e σ.
Proof.
  intros HG.
  induction e as [m|c|op a IHa|op a b IHa IHb|op a b IHa IHb|f args IHf IHargs|m a IHa]
    using expr_nested_ind; cbn [loads]; intros σ Hb.
  - cbn. destruct (Hb m) as [v Hv]; [now left|].
    now rewrite !(resolve_local _ _ _ _ _ Hv).
  - reflexivity.
  - cbn [eval_expr]. apply bind_ext_at; [auto|]. reflexivity.
  - cbn [eval_expr].
    apply bind_ext_at; [apply IHa; intros n Hn; apply Hb, in_app_iff; now left|].
    intros x σ1 Hev. apply bind_ext_at; [|reflexivity].
    apply IHb. intros n Hn.
    pose proof (eval_expr_grows h1 g a σ n) as Hg. rewrite Hev in Hg.
    apply Hg, Hb, in_app_iff. now right.
  - assert (Hb2 : forall x σ1, eval_expr h1 g a σ = (Return x, σ1) ->
                  eval_expr h1 g b σ1 = eval_expr h2 g b σ1).
    { intros x σ1 Hev. apply IHb. intros n Hn.
      pose proof (eval_expr_grows h1 g a σ n) as Hg. rewrite Hev in Hg.
      apply Hg, Hb, in_app_iff. now right. }
    destruct op; cbn [eval_expr];
      (apply bind_ext_at; [apply IHa; intros n Hn; apply Hb, in_app_iff; now left|]);
      intros x σ1 Hev; destruct (truthy x); eauto.
  - rewrite !eval_expr_call.
    apply bind_ext_at; [apply IHf; intros n Hn; apply Hb, in_app_iff; now left|].
    intros fv σ1 Hev. apply bind_ext_at.
    + apply eval_args_scope_only; [assumption..|]. intros n Hn.
      pose proof (eval_expr_grows h1 g f σ n) as Hg. rewrite Hev in Hg.
      apply Hg, Hb, in_app_iff. now right.
    + intros vs σ2 _. unfold lift. now rewrite (call_value_ext h1 h2 fv vs HG).
  - cbn [eval_expr]. apply bind_ext_at; [auto|]. reflexivity.
Qed.





(** X4. An expression all of whose names are keys of the scope gets nothing
    from the built-in namespace: the call, evaluated within the model, gives
    the same outcome and scope under any two built-in namespaces, whatever
    they bind those names to. *)
Theorem scope_names_ignore_builtins (h1 h2 : host) (code : string) (e : expr)
    (σ : namespace)
    (HG : h_globals h1 = h_globals h2)
    (Hp : parse code = POk e)
    (Hb : forall n, In n (loads e) -> is_Some (σ !! n))
    (Hm : in_model (fst (eval_in_scope h1 code σ)) = true) :
  eval_in_scope h1 code σ = eval_in_scope h2 code σ.
Proof.
  unfold eval_in_scope, py_eval. rewrite Hp. now apply eval_expr_scope_only.
Qed.

(** With max and x in the scope, max(x, 1) is the same with the standard
    built-ins and with none at all. *)
Lemma scope_names_ignore_builtins_witness :
  eval_in_scope script_host "max(x, 1)" {[ "max" := VBuiltin "min"; "x" := VInt 3 ]}
  = eval_in_scope {| h_builtins := ∅; h_globals := h_globals script_host; h_locals := ∅ |}
      "max(x, 1)" {[ "max" := VBuiltin "min"; "x" := VInt 3 ]}.
Proof.
  apply (scope_names_ignore_builtins script_host _ "max(x, 1)"
           (Call (Name "max") [Name "x"; Constant (CInt 1)])).
  - reflexivity.
  - vm_compute. reflexivity.
  - cbn. intros n [<-|[<-|[]]]; vm_compute; eauto.
  - vm_compute. reflexivity.
Defined.

(** ** Where a NameError comes from *)

Lemma rich_compare_raises gt a b x : rich_compare gt a b = Raise x -> x = TypeError.
Proof.
  unfold rich_compare. destruct (as_int a), (as_int b); try discriminate;
    destruct a, b; try discriminate; now intros [= <-].
Qed.

Lemma extremum_loop_raises gt cur items x :
  extremum_loop gt cur items = Raise x -> x = TypeError.
Proof.
  revert cur. induction items as [|item items IH]; intros cur; cbn; [discriminate|].
  destruct (rich_compare gt item cur) as [[]|e|] eqn:E; try (now apply IH); [|discriminate].
  intros [= <-]. exact (rich_compare_raises _ _ _ _ E).
Qed.

Lemma call_value_raises h f vs x : call_value h f vs = Raise x -> x = TypeError.
Proof.
  destruct f as [| | | |name| | |]; cbn; try congruence.
  unfold call_builtin.
  assert (Hex : forall gt, extremum gt vs = Raise x -> x = TypeError).
  { intros gt. destruct vs as [|v [|w vs]]; cbn; [congruence| |].
    - destruct v; congruence.
    - apply (extremum_loop_raises gt v (w :: vs)). }
  destruct (String.eqb name "max"); [apply Hex|].
  destruct (String.eqb name "min"); [apply Hex|].
  destruct (String.eqb name "abs").
  { destruct vs as [|v [|? ?]]; try congruence. destruct (as_int v); [congruence|].
    destruct v; congruence. }
  destruct (String.eqb name "__import__").
  { destruct vs as [|[| | |m| | | |] [|? ?]]; try discriminate.
    destruct (String.eqb m "__main__"); discriminate. }
  destruct (String.eqb name "getattr"); [|discriminate].
  destruct vs as [|[] [|[| | |a| | | |] [|? ?]]]; try discriminate.
  destruct (starts_with _ a); [discriminate|]. destruct (h_globals h !! a); discriminate.
Qed.

Lemma binary_op_raises op a b x :
  binary_op op a b = Raise x -> x = TypeError \/ x = ZeroDivisionError.
Proof.
  unfold binary_op. destruct (as_int a), (as_int b), op;
    try (destruct (_ =? 0)%Z); try discriminate;
    try (intros [= <-]; auto); destruct a, b; try discriminate; intros [= <-]; auto.
Qed.

Lemma unary_op_raises op a x : unary_op op a = Raise x -> x = TypeError.
Proof.
  unfold unary_op. destruct op; [|discriminate].
  destruct (as_int a); [discriminate|]. destruct a; congruence.
Qed.

Lemma eval_args_name_error h g n args :
  frame_builtins h g = BuiltinsNs (h_builtins h) ->
  Forall (fun a => forall σ, fst (eval_expr h g a σ) = Raise (NameError n) ->
                   In n (loads a) /\ σ !! n = None /\ g !! n = None
                   /\ h_builtins h !! n = None) args ->
  forall σ, fst (eval_args h g args σ) = Raise (NameError n) ->
  In n (flat_map loads args) /\ σ !! n = None /\ g !! n = None
  /\ h_builtins h !! n = None.
Proof.
  intros Hfb. induction 1 as [|a args Ha _ IH]; intros σ Hr; [discriminate|].
  rewrite eval_args_cons in Hr. cbn [flat_map]. rewrite in_app_iff.
  apply bind_inv_raise in Hr as [Hr|(v & σ1 & Hev & Hr)].
  - destruct (Ha σ Hr) as (? & ? & ? & ?). auto.
  - apply bind_inv_raise in Hr as [Hr|(vs & σ2 & _ & Hr)]; [|discriminate].
    destruct (IH σ1 Hr) as (? & Hn & ? & ?). repeat split; auto.
    apply (grows_none (eval_expr h g a) σ n (eval_expr_grows h g a)). now rewrite Hev.
Qed.

Lemma eval_expr_name_error h g n e :
  frame_builtins h g = BuiltinsNs (h_builtins h) ->
  forall σ, fst (eval_expr h g e σ) = Raise (NameError n) ->
  In n (loads e) /\ σ !! n = None /\ g !! n = None /\ h_builtins h !! n = None.
Proof.
  intros Hfb. induction e as [m|c|op a IHa|op a b IHa IHb|op a b IHa IHb|f args IHf IHargs|m a IHa]
    using expr_nested_ind; cbn [loads]; intros σ Hr.
  - cbn in Hr. rewrite (resolve_ns _ _ _ _ _ Hfb) in Hr. unfold load_name in Hr.
    destruct (σ !! m) eqn:E1; [discriminate|].
    destruct (g !! m) eqn:E2; [discriminate|].
    destruct (h_builtins h !! m) eqn:E3; [discriminate|].
    injection Hr as <-. repeat split; auto. now left.
  - discriminate.
  - cbn [eval_expr] in Hr. apply bind_inv_raise in Hr as [Hr|(x & σ1 & Hev & Hr)]; [auto|].
    cbn in Hr. apply unary_op_raises in Hr. discriminate.
  - cbn [eval_expr] in Hr. rewrite in_app_iff.
    apply bind_inv_raise in Hr as [Hr|(x & σ1 & Hev & Hr)].
    + destruct (IHa σ Hr) as (? & ? & ? & ?). auto.
    + apply bind_inv_raise in Hr as [Hr|(y & σ2 & _ & Hr)].
      * destruct (IHb σ1 Hr) as (? & Hn & ? & ?). repeat split; auto.
        apply (grows_none (eval_expr h g a) σ n (eval_expr_grows h g a)). now rewrite Hev.
      * cbn in Hr. apply binary_op_raises in Hr as [Hr|Hr]; discriminate.
  - rewrite in_app_iff.
    assert (Hright : forall x σ1, eval_expr h g a σ = (Return x, σ1) ->
              fst (eval_expr h g b σ1) = Raise (NameError n) ->
              (In n (loads a) \/ In n (loads b)) /\ σ !! n = None /\ g !! n = None
              /\ h_builtins h !! n = None).
    { intros x σ1 Hev Hr'. destruct (IHb σ1 Hr') as (? & Hn & ? & ?). repeat split; auto.
      apply (grows_none (eval_expr h g a) σ n (eval_expr_grows h g a)). now rewrite Hev. }
    destruct op; cbn [eval_expr] in Hr;
      apply bind_inv_raise in Hr as [Hr|(x & σ1 & Hev & Hr)];
      try (destruct (IHa σ Hr) as (? & ? & ? & ?); now auto);
      destruct (truthy x); try discriminate; eauto.
  - rewrite eval_expr_call in Hr. rewrite in_app_iff.
    apply bind_inv_raise in Hr as [Hr|(fv & σ1 & Hev & Hr)].
    + destruct (IHf σ Hr) as (? & ? & ? & ?). auto.
    + apply bind_inv_raise in Hr as [Hr|(vs & σ2 & _ & Hr)].
      * destruct (eval_args_name_error h g n args Hfb IHargs σ1 Hr) as (? & Hn & ? & ?).
        repeat split; auto.
        apply (grows_none (eval_expr h g f) σ n (eval_expr_grows h g f)). now rewrite Hev.
      * cbn in Hr. apply call_value_raises in Hr. discriminate.
  - cbn [eval_expr] in Hr. apply bind_inv_raise in Hr as [Hr|(x & σ1 & Hev & Hr)]; [auto|].
    discriminate.
Qed.

(** X5. A NameError is never spurious: when the call raises NameError for a
    name, the expression references that name, and the name is no key of the
    scope passed in, is not [__builtins__], and is bound nowhere in the
    built-in namespace. *)
Theorem name_error_names_unbound (h : host) (code : string) (e : expr)
    (σ : namespace) (n : string)
    (Hp : parse code = POk e)
    (Hr : fst (eval_in_scope h code σ) = Raise (NameError n)) :
  In n (loads e) /\ σ !! n = None /\ n <> "__builtins__" /\ h_builtins h !! n = None.
Proof.
  unfold eval_in_scope, py_eval in Hr. rewrite Hp in Hr.
  destruct (eval_expr_name_error h eval_globals n e (frame_builtins_eval_globals h) σ Hr)
    as (Hl & Hσ & Hg & HB).
  repeat split; auto. intros ->. discriminate Hg.
Qed.

Lemma name_error_names_unbound_witness :
  In "c" ["a"; "b"; "c"]
  /\ ({[ "a" := VInt 2; "b" := VInt 3 ]} : namespace) !! "c" = None
  /\ "c" <> "__builtins__" /\ h_builtins script_host !! "c" = None.
Proof.
  apply (name_error_names_unbound script_host "a + b * c"
           (BinOp Add (Name "a") (BinOp Mult (Name "b") (Name "c")))
           {[ "a" := VInt 2; "b" := VInt 3 ]} "c").
  - vm_compute. reflexivity.
  - vm_compute. reflexivity.
Defined.

(** ** Leading white space *)

Lemma lex_go_is_space fuel c s :
  is_space c = true -> lex_go (S fuel) (String c s) = lex_go fuel s.
Proof. intros Hc. cbn [lex_go]. now rewrite Hc. Qed.

Lemma lex_go_skip_spaces ws code fuel :
  string_forall is_space ws = true ->
  lex_go (String.length ws + fuel) (String.append ws code) = lex_go fuel code.
Proof.
  intros Hws. induction ws as [|c ws IH]; [reflexivity|].
  cbn in Hws. apply andb_true_iff in Hws as [Hc Hws].
  rewrite append_cons. cbn [String.length Nat.add].
  rewrite (lex_go_is_space _ c _ Hc). now apply IH.
Qed.

Lemma lex_leading_spaces ws code :
  string_forall is_space ws = true -> lex (String.append ws code) = lex code.
Proof.
  intros Hws. unfold lex. rewrite length_append.
  replace (S (String.length ws + String.length code))
    with (String.length ws + S (String.length code))%nat by lia.
  now apply lex_go_skip_spaces.
Qed.

(** X6. Spaces and tabs in front of an expression of the model change
    nothing: the call gives the same outcome and scope as for the expression
    without them. *)
Theorem leading_spaces_ignored (h : host) (ws code : string) (σ : namespace)
    (Hws : string_forall is_space ws = true)
    (Hm : in_model (fst (eval_in_scope h code σ)) = true) :
  eval_in_scope h (String.append ws code) σ = eval_in_scope h code σ.
Proof.
  unfold eval_in_scope, py_eval, parse. now rewrite (lex_leading_spaces ws code Hws).
Qed.

Lemma leading_spaces_ignored_witness :
  eval_in_scope script_host "   a + b" {[ "a" := VInt 2; "b" := VInt 3 ]}
  = eval_in_scope script_host "a + b" {[ "a" := VInt 2; "b" := VInt 3 ]}.
Proof.
  apply (leading_spaces_ignored script_host "   " "a + b").
  - reflexivity.
  - vm_compute. reflexivity.
Defined.

(** ** Calling what the scope binds *)

(** X7. Shadowing holds in call position too: when the function of a call is
    a name that the scope binds to something that is no function, the call
    never returns a value, whatever the built-ins bind the name to; once the
    arguments are evaluated it raises TypeError. *)
Theorem shadowed_name_not_callable (h : host) (code f : string) (args : list expr)
    (σ : namespace) (v : value)
    (Hp : parse code = POk (Call (Name f) args))
    (Hσ : σ !! f = Some v)
    (Hv : forall name, v <> VBuiltin name) :
  is_return (fst (eval_in_scope h code σ)) = false
  /\ forall vs σ', eval_args h eval_globals args σ = (Return vs, σ') ->
                   eval_in_scope h code σ = (Raise TypeError, σ').
Proof.
  assert (Hcall : forall vs, call_value h v vs = Raise TypeError).
  { intros vs. destruct v; try reflexivity. now destruct (Hv name). }
  assert (Heq : eval_expr h eval_globals (Call (Name f) args) σ
                = bind (eval_args h eval_globals args)
                    (fun vs => lift (call_value h v vs)) σ).
  { rewrite eval_expr_call. unfold bind at 1. cbn [eval_expr].
    now rewrite (resolve_local _ _ _ _ _ Hσ). }
  unfold eval_in_scope, py_eval. rewrite Hp, Heq. unfold bind, lift.
  split.
  - destruct (eval_args h eval_globals args σ) as [[vs|x|] σ']; cbn; auto.
    now rewrite Hcall.
  - intros vs σ' Hev. now rewrite Hev, Hcall.
Qed.

(** With max bound to 5 in the scope, max(1, 2) raises TypeError. *)
Lemma shadowed_name_not_callable_witness :
  eval_in_scope script_host "max(1, 2)" {[ "max" := VInt 5 ]}
  = (Raise TypeError, {[ "max" := VInt 5 ]}).
Proof.
  destruct (shadowed_name_not_callable script_host "max(1, 2)" "max"
              [Constant (CInt 1); Constant (CInt 2)] {[ "max" := VInt 5 ]} (VInt 5))
    as [_ H].
  - vm_compute. reflexivity.
  - vm_compute. reflexivity.
  - discriminate.
  - apply (H [VInt 1; VInt 2]). reflexivity.
Defined.

(** ** Arithmetic never fails *)

Lemma eval_expr_arithmetic h g e σ :
  arithmetic e = true ->
  (forall n, In n (loads e) -> exists v, σ !! n = Some v /\ is_integral v = true) ->
  exists v, eval_expr h g e σ = (Return v, σ) /\ is_integral v = true.
Proof.
  induction e as [m|c|op a IHa|op a b IHa IHb|op a b IHa IHb|f args IHf IHargs|m a IHa]
    using expr_nested_ind; cbn [arithmetic loads]; intros Ha Hn; try discriminate.
  - destruct (Hn m) as (v & Hv & Hnum); [now left|].
    exists v. cbn. now rewrite (resolve_local _ _ _ _ _ Hv).
  - destruct c; try discriminate; eexists; split; reflexivity.
  - destruct op; [|discriminate].
    destruct (IHa Ha Hn) as (v & Hev & Hnum).
    cbn [eval_expr]. unfold bind. rewrite Hev. unfold lift, unary_op.
    unfold is_integral in Hnum. destruct (as_int v); [|discriminate].
    eexists; split; reflexivity.
  - assert (Hab : arithmetic a = true /\ arithmetic b = true).
    { destruct op; try discriminate; now apply andb_true_iff in Ha. }
    destruct Hab as [Ha1 Ha2].
    destruct (IHa Ha1) as (x & Hx & Hnx); [intros n Hin; apply Hn, in_app_iff; now left|].
    destruct (IHb Ha2) as (y & Hy & Hny); [intros n Hin; apply Hn, in_app_iff; now right|].
    cbn [eval_expr]. unfold bind. rewrite Hx, Hy. unfold lift, binary_op.
    unfold is_integral in Hnx, Hny.
    destruct (as_int x); [|discriminate]. destruct (as_int y); [|discriminate].
    destruct op; try discriminate; eexists; split; reflexivity.
Qed.

(** X8. Arithmetic cannot fail: an expression built from names, integer and
    boolean literals, unary minus and + - *, all of whose names the scope
    binds to numbers, returns a number and leaves the scope as it was. *)
Theorem arithmetic_returns_number (h : host) (code : string) (e : expr) (σ : namespace)
    (Hp : parse code = POk e) (Ha : arithmetic e = true)
    (Hn : forall n, In n (loads e) -> exists v, σ !! n = Some v /\ is_integral v = true) :
  exists v, eval_in_scope h code σ = (Return v, σ) /\ is_integral v = true.
Proof.
  unfold eval_in_scope, py_eval. rewrite Hp. now apply eval_expr_arithmetic.
Qed.

Lemma arithmetic_returns_number_witness :
  exists v, eval_in_scope script_host "-a * (b - 7) + True" {[ "a" := VInt 2; "b" := VBool true ]}
            = (Return v, {[ "a" := VInt 2; "b" := VBool true ]})
            /\ is_integral v = true.
Proof.
  apply (arithmetic_returns_number script_host "-a * (b - 7) + True"
           (BinOp Add (BinOp Mult (UnaryOp USub (Name "a"))
                         (BinOp Sub (Name "b") (Constant (CInt 7))))
              (Constant (CBool true)))).
  - vm_compute. reflexivity.
  - reflexivity.
  - cbn. intros n [<-|[<-|[]]]; eexists; (split; [vm_compute; reflexivity|reflexivity]).
Defined.

(** ** min and abs *)

Lemma extremum_min_int x y :
  extremum false [VInt x; VInt y] = Return (VInt (Z.min x y)).
Proof.
  cbn. destruct (Z.ltb_spec y x).
  - now rewrite Z.min_r by lia.
  - now rewrite Z.min_l by lia.
Qed.

(** X9. The other built-ins the docstring names work the same way: with min
    and abs bound to the built-ins and not shadowed, min(x, y) over
    scope-bound integers is the smaller one and abs(x) the absolute value,
    and the scope is left as it was. *)
Theorem builtin_min_abs_call (h : host) (σ : namespace) (x y : Z)
    (Hmin : h_builtins h !! "min" = Some (VBuiltin "min"))
    (Habs : h_builtins h !! "abs" = Some (VBuiltin "abs"))
    (Hfmin : σ !! "min" = None) (Hfabs : σ !! "abs" = None)
    (Hx : σ !! "x" = Some (VInt x)) (Hy : σ !! "y" = Some (VInt y)) :
  eval_in_scope h "min(x, y)" σ = (Return (VInt (Z.min x y)), σ)
  /\ eval_in_scope h "abs(x)" σ = (Return (VInt (Z.abs x)), σ).
Proof.
  split; unfold eval_in_scope, py_eval.
  - change (parse "min(x, y)") with (POk (Call (Name "min") [Name "x"; Name "y"])).
    cbn [eval_expr]. unfold bind, ret, lift.
    rewrite (resolve_builtin h σ "min" _ Hfmin eq_refl Hmin).
    rewrite (resolve_local _ _ _ _ _ Hx), (resolve_local _ _ _ _ _ Hy).
    cbn [call_value]. change (call_builtin h "min") with (extremum false).
    now rewrite extremum_min_int.
  - change (parse "abs(x)") with (POk (Call (Name "abs") [Name "x"])).
    cbn [eval_expr]. unfold bind, ret, lift.
    rewrite (resolve_builtin h σ "abs" _ Hfabs eq_refl Habs).
    rewrite (resolve_local _ _ _ _ _ Hx). reflexivity.
Qed.

Lemma builtin_min_abs_call_witness :
  eval_in_scope script_host "min(x, y)" {[ "x" := VInt (-10); "y" := VInt 20 ]}
    = (Return (VInt (-10)), {[ "x" := VInt (-10); "y" := VInt 20 ]})
  /\ eval_in_scope script_host "abs(x)" {[ "x" := VInt (-10); "y" := VInt 20 ]}
     = (Return (VInt 10), {[ "x" := VInt (-10); "y" := VInt 20 ]}).
Proof.
  apply (builtin_min_abs_call script_host {[ "x" := VInt (-10); "y" := VInt 20 ]} (-10) 20);
    vm_compute; reflexivity.
Defined.

(** ** The script's own statements *)

Lemma eval_sum3 h σ (a b c : Z) :
  σ !! "a" = Some (VInt a) -> σ !! "b" = Some (VInt b) -> σ !! "c" = Some (VInt c) ->
  eval_in_scope h "a + b + c" σ = (Return (VInt (a + b + c)), σ).
Proof.
  intros Ha Hb Hc. unfold eval_in_scope, py_eval.
  change (parse "a + b + c")
    with (POk (BinOp Add (BinOp Add (Name "a") (Name "b")) (Name "c"))).
  cbn [eval_expr]. unfold bind, lift.
  now rewrite (resolve_local _ _ _ _ _ Ha), (resolve_local _ _ _ _ _ Hb),
    (resolve_local _ _ _ _ _ Hc).
Qed.

Lemma eval_double h σ (b : Z) :
  σ !! "b" = Some (VInt b) ->
  eval_in_scope h "b * 2" σ = (Return (VInt (b * 2)), σ).
Proof.
  intros Hb. unfold eval_in_scope, py_eval.
  change (parse "b * 2") with (POk (BinOp Mult (Name "b") (Constant (CInt 2)))).
  cbn [eval_expr]. unfold bind, lift, ret.
  now rewrite (resolve_local _ _ _ _ _ Hb).
Qed.

Lemma eval_sum2 h σ (a b : Z) :
  σ !! "a" = Some (VInt a) -> σ !! "b" = Some (VInt b) ->
  eval_in_scope h "a + b" σ = (Return (VInt (a + b)), σ).
Proof.
  intros Ha Hb. unfold eval_in_scope, py_eval.
  change (parse "a + b") with (POk (BinOp Add (Name "a") (Name "b"))).
  cbn [eval_expr]. unfold bind, lift.
  now rewrite (resolve_local _ _ _ _ _ Ha), (resolve_local _ _ _ _ _ Hb).
Qed.

(** X10. Run in a host where the script finds the built-ins print and eval
    under their names and the built-in namespace binds max to the built-in,
    the statements of the script print 5, 20, 66 and 44, the outputs its
    comments announce, and the dictionary [scope], handed to two calls in a
    row, is at the end what it was bound to.  Where print is bound nowhere,
    the first statement raises NameError and nothing is printed. *)
Theorem script_prints_documented_outputs (h : host)
    (Hprint : load_global h "print" = Return (VBuiltin "print"))
    (Heval : load_global h "eval" = Return (VBuiltin "eval"))
    (Hmax : h_builtins h !! "max" = Some (VBuiltin "max")) :
  script_main h
  = (Return [VInt 5; VInt 20; VInt 66; VInt 44],
     Some {[ "a" := VInt 11; "b" := VInt 22; "c" := VInt 33 ]})
  /\ forall h', load_global h' "print" = Raise (NameError "print") ->
                script_main h' = (Raise (NameError "print"), None).
Proof.
  split.
  - unfold script_main, print_eval_in_scope, call_eval_in_scope.
    rewrite Hprint, Heval. cbn [is_builtin]. cbn iota.
    change (String.eqb "print" "print") with true.
    change (String.eqb "eval" "eval") with true. cbn iota.
    rewrite (eval_sum2 h _ 2 3) by (vm_compute; reflexivity).
    rewrite (eval_max_xy h _ 10 20 Hmax) by (vm_compute; reflexivity).
    rewrite (eval_sum3 h _ 11 22 33) by (vm_compute; reflexivity).
    rewrite (eval_double h _ 22) by (vm_compute; reflexivity).
    reflexivity.
  - intros h' Hp. unfold script_main, print_eval_in_scope. now rewrite Hp.
Qed.

Lemma script_prints_documented_outputs_witness :
  fst (script_main script_host) = Return [VInt 5; VInt 20; VInt 66; VInt 44].
Proof.
  destruct (script_prints_documented_outputs script_host) as [H _];
    [vm_compute; reflexivity..|].
  now rewrite H.
Defined.

(** ** Floor division *)

(** X11. Division by zero is a fault of the expression that reaches the
    caller as the host's ZeroDivisionError, the scope left as it was; any
    other divisor gives the quotient rounded towards minus infinity. *)
Theorem floor_division (h : host) (σ : namespace) (x y : Z)
    (Hx : σ !! "x" = Some (VInt x)) (Hy : σ !! "y" = Some (VInt y)) :
  (y = 0%Z -> eval_in_scope h "x // y" σ = (Raise ZeroDivisionError, σ))
  /\ (y <> 0%Z ->
      exists q, eval_in_scope h "x // y" σ = (Return (VInt q), σ)
                /\ (0 < y -> y * q <= x < y * q + y)%Z
                /\ (y < 0 -> y * q + y < x <= y * q)%Z).
Proof.
  assert (Hev : eval_in_scope h "x // y" σ = (binary_op FloorDiv (VInt x) (VInt y), σ)).
  { unfold eval_in_scope, py_eval.
    change (parse "x // y") with (POk (BinOp FloorDiv (Name "x") (Name "y"))).
    cbn [eval_expr]. unfold bind, lift.
    now rewrite (resolve_local _ _ _ _ _ Hx), (resolve_local _ _ _ _ _ Hy). }
  rewrite Hev. cbn. split.
  - intros ->. reflexivity.
  - intros Hne. destruct (Z.eqb_spec y 0) as [|_]; [contradiction|].
    exists (x / y)%Z. split; [reflexivity|]. split; intros Hs.
    + pose proof (Z.mul_div_le x y Hs). pose proof (Z.mul_succ_div_gt x y Hs). lia.
    + pose proof (Z.mul_div_ge x y Hs). pose proof (Z.mul_succ_div_lt x y Hs). lia.
Qed.

Lemma floor_division_witness :
  eval_in_scope script_host "x // y" {[ "x" := VInt (-7); "y" := VInt 0 ]}
    = (Raise ZeroDivisionError, {[ "x" := VInt (-7); "y" := VInt 0 ]})
  /\ exists q, eval_in_scope script_host "x // y" {[ "x" := VInt (-7); "y" := VInt 2 ]}
               = (Return (VInt q), {[ "x" := VInt (-7); "y" := VInt 2 ]})
               /\ (2 * q <= -7 < 2 * q + 2)%Z.
Proof.
  split.
  - apply (floor_division script_host {[ "x" := VInt (-7); "y" := VInt 0 ]} (-7) 0);
      reflexivity.
  - destruct (floor_division script_host {[ "x" := VInt (-7); "y" := VInt 2 ]} (-7) 2)
      as [_ H]; [reflexivity..|].
    destruct H as (q & Hq & Hpos & _); [discriminate|].
    exists q. split; [assumption|]. apply Hpos. reflexivity.
Defined.

(** ** Assignment and the text of the expression *)

Lemma span_rest_forall q p s :
  string_forall q s = true -> string_forall q (snd (span p s)) = true.
Proof.
  induction s as [|c s IH]; [reflexivity|]. intros Hs. cbn [span].
  destruct (p c); [|exact Hs].
  cbn in Hs. apply andb_true_iff in Hs as [_ Hs].
  destruct (span p s) as [w r]. cbn in IH |- *. auto.
Qed.

Lemma word_token_not_walrus w : word_token w <> TWalrus.
Proof.
  unfold word_token.
  repeat match goal with |- context [if ?b then _ else _] => destruct b end; discriminate.
Qed.

Lemma lex_go_walrus_free fuel s : no_colon s = true -> walrus_free (lex_go fuel s).
Proof.
  unfold no_colon, walrus_free. revert s.
  induction fuel as [|fuel IH]; intros s Hs; [repeat constructor; discriminate|].
  destruct s as [|c s']; [constructor|].
  pose proof Hs as Hs0.
  cbn [string_forall] in Hs. apply andb_true_iff in Hs as [Hc Hs].
  apply negb_true_iff in Hc.
  assert (Hother : Forall (fun t => t <> TWalrus) [TOther])
    by (repeat constructor; discriminate).
  cbn [lex_go].
  destruct (is_space c); [auto|].
  destruct (is_ident_start c).
  { pose proof (span_rest_forall _ is_ident_char _ Hs0) as Hr.
    destruct (span is_ident_char (String c s')) as [w rest]. cbn in Hr.
    constructor; [apply word_token_not_walrus|auto]. }
  destruct (is_digit c).
  { pose proof (span_rest_forall _ is_digit _ Hs0) as Hr.
    destruct (span is_digit (String c s')) as [d rest]. cbn in Hr.
    destruct (plain_decimal d rest); [|assumption].
    constructor; [discriminate|auto]. }
  destruct (is_char 43 c).
  { destruct (starts_with _ s'); [assumption|]. constructor; [discriminate|auto]. }
  destruct (is_char 45 c).
  { destruct (starts_with _ s'); [assumption|]. constructor; [discriminate|auto]. }
  destruct (is_char 42 c).
  { destruct (starts_with _ s'); [assumption|]. constructor; [discriminate|auto]. }
  destruct (is_char 47 c).
  { destruct s' as [|c2 s'']; [assumption|].
    cbn [string_forall] in Hs. apply andb_true_iff in Hs as [_ Hs].
    destruct (is_char 47 c2 && _); [|assumption]. constructor; [discriminate|auto]. }
  destruct (is_char 40 c); [constructor; [discriminate|auto]|].
  destruct (is_char 41 c); [constructor; [discriminate|auto]|].
  destruct (is_char 44 c); [constructor; [discriminate|auto]|].
  rewrite Hc. assumption.
Qed.

Lemma walrus_free_tail t ts : walrus_free (t :: ts) -> walrus_free ts.
Proof. intros H. now inversion H. Qed.

Lemma atom_assign_free rec : assign_free expr_ok rec -> assign_free expr_ok (atom_with rec).
Proof.
  intros Hrec ts e r Hts Hp.
  assert (Hparen : forall ts1, walrus_free ts1 ->
            pbind (rec ts1) (fun '(e, r') => expect_rparen e r') = POk (e, r) ->
            no_assign e = true /\ walrus_free r).
  { intros ts1 Hts1 H. apply pbind_inv in H as ([e1 r1] & H1 & H2).
    apply expect_rparen_inv in H2 as [-> ->].
    destruct (Hrec _ _ _ Hts1 H1) as [He Hr]. split; [assumption|].
    now apply walrus_free_tail in Hr. }
  destruct ts as [|t ts]; [discriminate|].
  pose proof (walrus_free_tail _ _ Hts) as Hts'.
  destruct t; cbn in Hp; try discriminate;
    try (injection Hp as <- <-; now split).
  destruct ts as [|t2 ts2]; [now apply (Hparen [])|].
  destruct t2; try (now apply (Hparen _ Hts')); try discriminate.
  destruct ts2 as [|t3 ts3]; [now apply (Hparen _ Hts')|].
  destruct t3; try (now apply (Hparen _ Hts')).
  exfalso. apply walrus_free_tail in Hts'. inversion Hts'. congruence.
Qed.

Lemma args_assign_free k rec :
  assign_free expr_ok rec ->
  assign_free (fun es => forallb no_assign es = true) (args_with k rec).
Proof.
  intros Hrec. induction k as [|k IH]; intros ts es r Hts Hp; [discriminate|].
  assert (Hgen : pbind (rec ts) (fun '(e, r) =>
            match r with
            | TComma :: r' => pbind (args_with k rec r') (fun '(es, r'') => POk (e :: es, r''))
            | TRParen :: r' => POk ([e], r')
            | _ => follow_error r
            end) = POk (es, r) ->
          forallb no_assign es = true /\ walrus_free r).
  { intros H. apply pbind_inv in H as ([e1 r1] & H1 & H2).
    destruct (Hrec _ _ _ Hts H1) as [He Hr1].
    destruct r1 as [|t r1]; [discriminate|].
    pose proof (walrus_free_tail _ _ Hr1) as Hr1'.
    destruct t; try discriminate.
    - injection H2 as <- <-. cbn. now rewrite He.
    - apply pbind_inv in H2 as ([es2 r2] & H3 & H4). injection H4 as <- <-.
      destruct (IH _ _ _ Hr1' H3) as [Hes Hr2]. cbn. now rewrite He. }
  cbn [args_with] in Hp. destruct ts as [|t ts']; [now apply Hgen|].
  destruct t; try (now apply Hgen).
  injection Hp as <- <-. split; [reflexivity|]. now apply walrus_free_tail in Hts.
Qed.

Lemma trailers_assign_free k rec f :
  assign_free expr_ok rec -> no_assign f = true ->
  forall ts e r, walrus_free ts -> trailers_with k rec f ts = POk (e, r) ->
  no_assign e = true /\ walrus_free r.
Proof.
  intros Hrec. revert f. induction k as [|k IH]; intros f Hf ts e r Hts Hp; [discriminate|].
  cbn [trailers_with] in Hp. destruct ts as [|t ts']; [injection Hp as <- <-; now split|].
  destruct t; try (injection Hp as <- <-; now split).
  apply pbind_inv in Hp as ([es r1] & H1 & H2).
  destruct (args_assign_free _ rec Hrec _ _ _ (walrus_free_tail _ _ Hts) H1) as [Hes Hr1].
  apply (IH (Call f es) ltac:(cbn; now rewrite Hf) r1 e r Hr1 H2).
Qed.

Lemma primary_assign_free rec :
  assign_free expr_ok rec -> assign_free expr_ok (primary_with rec).
Proof.
  intros Hrec ts e r Hts Hp. unfold primary_with in Hp.
  apply pbind_inv in Hp as ([a r1] & H1 & H2).
  destruct (atom_assign_free rec Hrec _ _ _ Hts H1) as [Ha Hr1].
  now apply (trailers_assign_free _ rec a Hrec Ha _ _ _ Hr1 H2).
Qed.

Lemma factor_assign_free rec :
  assign_free expr_ok rec -> assign_free expr_ok (factor_with rec).
Proof.
  intros Hrec ts. induction ts as [|t ts IH]; intros e r Hts Hp.
  - now apply (primary_assign_free rec Hrec [] e r).
  - destruct t; try (now apply (primary_assign_free rec Hrec _ e r Hts)).
    cbn [factor_with] in Hp. apply pbind_inv in Hp as ([e1 r1] & H1 & H2).
    injection H2 as <- <-.
    destruct (IH e1 r1 (walrus_free_tail _ _ Hts) H1) as [He Hr]. now split.
Qed.

Lemma chain_rest_assign_free k operand op_of :
  assign_free expr_ok operand ->
  (forall t mk, op_of t = Some mk ->
     forall a b, no_assign (mk a b) = no_assign a && no_assign b) ->
  forall lhs, no_assign lhs = true ->
  forall ts e r, walrus_free ts -> chain_rest k operand op_of lhs ts = POk (e, r) ->
  no_assign e = true /\ walrus_free r.
Proof.
  intros Hop Hmk. induction k as [|k IH]; intros lhs Hl ts e r Hts Hp; [discriminate|].
  cbn [chain_rest] in Hp. destruct ts as [|t ts']; [injection Hp as <- <-; now split|].
  destruct (op_of t) as [mk|] eqn:Eop; [|injection Hp as <- <-; now split].
  apply pbind_inv in Hp as ([rhs r1] & H1 & H2).
  destruct (Hop _ _ _ (walrus_free_tail _ _ Hts) H1) as [Hrhs Hr1].
  apply (IH (mk lhs rhs) ltac:(rewrite (Hmk _ _ Eop); now rewrite Hl, Hrhs) r1 e r Hr1 H2).
Qed.

Lemma chain_assign_free operand op_of :
  assign_free expr_ok operand ->
  (forall t mk, op_of t = Some mk ->
     forall a b, no_assign (mk a b) = no_assign a && no_assign b) ->
  assign_free expr_ok (chain operand op_of).
Proof.
  intros Hop Hmk ts e r Hts Hp. unfold chain in Hp.
  apply pbind_inv in Hp as ([lhs r1] & H1 & H2).
  destruct (Hop _ _ _ Hts H1) as [Hl Hr1].
  now apply (chain_rest_assign_free _ operand op_of Hop Hmk lhs Hl _ _ _ Hr1 H2).
Qed.

Lemma sum_assign_free rec : assign_free expr_ok rec -> assign_free expr_ok (sum_with rec).
Proof.
  intros Hrec. apply chain_assign_free.
  - apply chain_assign_free; [now apply factor_assign_free|].
    intros [] mk [= <-]; reflexivity.
  - intros [] mk [= <-]; reflexivity.
Qed.

Lemma inversion_assign_free rec :
  assign_free expr_ok rec -> assign_free expr_ok (inversion_with rec).
Proof.
  intros Hrec ts. induction ts as [|t ts IH]; intros e r Hts Hp.
  - now apply (sum_assign_free rec Hrec [] e r).
  - destruct t; try (now apply (sum_assign_free rec Hrec _ e r Hts)).
    cbn [inversion_with] in Hp. apply pbind_inv in Hp as ([e1 r1] & H1 & H2).
    injection H2 as <- <-.
    destruct (IH e1 r1 (walrus_free_tail _ _ Hts) H1) as [He Hr]. now split.
Qed.

Lemma parse_expr_assign_free n : assign_free expr_ok (parse_expr n).
Proof.
  induction n as [|n IH]; [intros ts e r _ Hp; discriminate|].
  cbn [parse_expr]. apply chain_assign_free.
  - apply chain_assign_free; [now apply inversion_assign_free|].
    intros [] mk [= <-]; reflexivity.
  - intros [] mk [= <-]; reflexivity.
Qed.

(** A text without a colon has no assignment expression in it. *)
Lemma no_colon_no_assign code : no_colon code = true -> code_no_assign code = true.
Proof.
  intros Hc. unfold code_no_assign, parse, parse_tokens.
  pose proof (lex_go_walrus_free (S (String.length code)) code Hc) as Hts.
  fold (lex code) in Hts.
  destruct (max_tokens <? length (lex code))%nat; [reflexivity|].
  destruct (parse_expr (S (length (lex code))) (lex code)) as [[e r]| |] eqn:Hp;
    [|reflexivity..].
  destruct (parse_expr_assign_free _ _ _ _ Hts Hp) as [He _].
  cbn. destruct r as [|t r]; [assumption|].
  destruct (follow_error (t :: r)) as [e0| |] eqn:Hf; [|reflexivity..].
  now destruct (follow_error_not_ok _ _ Hf).
Qed.

(** X12. The text of the expression tells: if it holds no colon, the call,
    evaluated within the model, leaves the scope exactly as it was, returning
    or raising. *)
Theorem no_colon_scope_unchanged (h : host) (code : string) (σ : namespace)
    (Hc : no_colon code = true)
    (Hm : in_model (fst (eval_in_scope h code σ)) = true) :
  snd (eval_in_scope h code σ) = σ.
Proof. apply eval_in_scope_frame. now apply no_colon_no_assign. Qed.

Lemma no_colon_scope_unchanged_witness :
  snd (eval_in_scope script_host "max(x, y) // (x - x)" {[ "x" := VInt 10; "y" := VInt 20 ]})
  = {[ "x" := VInt 10; "y" := VInt 20 ]}.
Proof.
  apply (no_colon_scope_unchanged script_host "max(x, y) // (x - x)"
           {[ "x" := VInt 10; "y" := VInt 20 ]}); vm_compute; reflexivity.
Defined.
